(** * Intersection phase model of the Traffic Lights page

    A shallow embedding of the state handling of
    [frontend/src/pages/TrafficLights.js]: the three derivations over a phase
    sequence ([getTotalCycleTime], [getActivePhase], [getNextPhase]), the three
    edit handlers ([handlePhaseChange], [handleStatusChange], [handleSave]) and
    the search filter ([filteredIntersections]); then of the rest of that
    page (opening the dialog, the refresh, what a card displays) and of the
    filtering and paging of [frontend/src/pages/Violations.js].

    JavaScript values are modelled as follows.
    - An array is a [list]; [a.length] is [length a].
    - [undefined] as the result of a lookup is [None].
    - An array index or a length is an integer [Z].
    - A phase duration and a sum of durations is a [JS.number]: an
      integer-valued double, an infinity or [NaN]. The durations the page
      can hold are integers or [Infinity] (the data set, the slider, and
      [parseInt(...) || 0]), and [JS.add] is the addition of doubles on
      them, rounding included.
    - A string is a [string] whose characters are the UTF-16 code units below
      256 (covering every string literal of the page).
    - A [Date] is kept as the text it was constructed from; no handler
      reads it.
    - An exception is the [Throw] case of [JS.result]. *)

From Stdlib Require Import ZArith NArith Ascii String ZifyBool.
From Corelib Require PrimFloat FloatOps SpecFloat.
From stdpp Require Import prelude strings.

(** ** The JavaScript primitives the page uses *)

Module JS.

Inductive error : Type := TypeError.

Inductive result (A : Type) : Type :=
| Ok (a : A)
| Throw (e : error).
Arguments Ok {A} a.
Arguments Throw {A} e.

#[global] Instance result_ret : MRet result := λ A, Ok.
#[global] Instance result_bind : MBind result :=
  λ A B f m, match m with Ok a => f a | Throw e => Throw e end.
#[global] Instance result_fmap : FMap result :=
  λ A B f m, match m with Ok a => Ok (f a) | Throw e => Throw e end.

(** Reading a property of a variable that may hold [null]: [null.p] throws. *)
Definition deref {A} (o : option A) : result A :=
  match o with
  | Some a => Ok a
  | None => Throw TypeError
  end.

(** [a % b] on integers: the sign follows the dividend, and a zero divisor
    gives [NaN] (here [None]). *)
Definition rem (a b : Z) : option Z :=
  if decide (b = 0)%Z then None else Some (Z.rem a b).

(** [arr[k]] for a numeric key: an element for an integer in range,
    [undefined] for every other number and for [NaN]. *)
Definition at_index {A} (arr : list A) (k : option Z) : option A :=
  match k with
  | Some z => if decide (0 ≤ z)%Z then arr !! Z.to_nat z else None
  | None => None
  end.

(** [arr.find(f)]: the first element on which [f] is truthy. *)
Definition find {A} (f : A → bool) (arr : list A) : option A :=
  snd <$> list_find (λ x, Is_true (f x)) arr.

(** [arr.findIndex(f)]: the index of that element, [-1] when there is none. *)
Definition findIndex {A} (f : A → bool) (arr : list A) : Z :=
  match list_find (λ x, Is_true (f x)) arr with
  | Some (i, _) => Z.of_nat i
  | None => (-1)%Z
  end.

(** The numbers that occur as durations and as their sums. [Int z] is the
    double whose value is the integer [z]; it is a value of the language
    when [z] is representable, that is when [round z = Int z]. *)
Inductive number : Type :=
| Int (z : Z)
| PosInfinity
| NegInfinity
| NaN.

(** The double nearest to the integer [z], as IEEE 754 binary64 rounds: a
    53-bit significand, ties to the even significand, and an infinity once
    the rounded magnitude reaches [2 ^ 1024]. *)
Definition round (z : Z) : number :=
  let a := Z.abs z in
  if (a <=? 2 ^ 53)%Z then Int z
  else
    let ulp := (2 ^ (Z.log2 a - 52))%Z in
    let q := (a / ulp)%Z in
    let r := (a mod ulp)%Z in
    let m :=
      if (2 * r <? ulp)%Z then q
      else if (ulp <? 2 * r)%Z then (q + 1)%Z
      else if Z.even q then q else (q + 1)%Z in
    if (2 ^ 1024 <=? m * ulp)%Z
    then (if (z <? 0)%Z then NegInfinity else PosInfinity)
    else Int (Z.sgn z * (m * ulp)).

(** [x + y] on numbers. *)
Definition add (x y : number) : number :=
  match x, y with
  | NaN, _ | _, NaN => NaN
  | PosInfinity, NegInfinity | NegInfinity, PosInfinity => NaN
  | PosInfinity, _ | _, PosInfinity => PosInfinity
  | NegInfinity, _ | _, NegInfinity => NegInfinity
  | Int a, Int b => round (a + b)
  end.

(** The same numbers as the kernel's binary64 floats, to compare [add] with
    the machine's addition. *)
Definition float_of_Z (z : Z) : PrimFloat.float :=
  FloatOps.SF2Prim (SpecFloat.binary_normalize 53 1024 z 0 false).

Definition number_of_float (f : PrimFloat.float) : number :=
  match FloatOps.Prim2SF f with
  | SpecFloat.S754_zero _ => Int 0
  | SpecFloat.S754_infinity s => if s then NegInfinity else PosInfinity
  | SpecFloat.S754_nan => NaN
  | SpecFloat.S754_finite s m e =>
      Int ((if s then -1 else 1) * Z.shiftl (Z.pos m) e)
  end.

(** [arr.reduce(f, init)]. *)
Definition reduce {A B} (f : B → A → B) (init : B) (arr : list A) : B :=
  fold_left f arr init.

(** [x || y] where [x] is an object or [undefined]: objects are truthy. *)
Definition or_else {A} (x y : option A) : option A :=
  match x with
  | Some a => Some a
  | None => y
  end.

(** Code units with a lower-case counterpart among the first 256:
    [A]-[Z], and the Latin-1 capitals U+00C0-U+00DE without U+00D7. *)
Definition is_upper (n : N) : bool :=
  ((65 <=? n) && (n <=? 90) ||
   (192 <=? n) && (n <=? 222) && negb (n =? 215))%N.

Definition lower_unit (c : ascii) : ascii :=
  let n := N_of_ascii c in
  if is_upper n then ascii_of_N (n + 32) else c.

(** [s.toLowerCase()]. *)
Fixpoint toLowerCase (s : string) : string :=
  match s with
  | EmptyString => EmptyString
  | String c s' => String (lower_unit c) (toLowerCase s')
  end.

(** [s.includes(t)]: [t] occurs in [s] at some position. *)
Fixpoint includes (s t : string) : bool :=
  String.prefix t s ||
  match s with
  | EmptyString => false
  | String _ s' => includes s' t
  end.

(** [arr.slice(start, end)] for integer bounds: a negative bound counts from
    the end of the array, both bounds are clamped to it, and an empty or
    reversed range gives the empty array. *)
Definition slice {A} (start final : Z) (arr : list A) : list A :=
  let len := Z.of_nat (length arr) in
  let from :=
    if decide (start < 0)%Z then Z.max (len + start) 0 else Z.min start len in
  let to :=
    if decide (final < 0)%Z then Z.max (len + final) 0 else Z.min final len in
  take (Z.to_nat (to - from)) (drop (Z.to_nat from) arr).

End JS.

Coercion JS.Int : Z >-> JS.number.
Bind Scope Z_scope with JS.number.

(** ** Data model *)

Module Phase.

Record t : Type := mk {
  id : string;
  name : string;
  duration : JS.number;
  active : bool;
  color : string
}.

(** The computed property [[field]: value] of [handlePhaseChange], for the
    five properties a phase has. *)
Inductive field : Type := Id | Name | Duration | Active | Color.

Inductive assignment : Type :=
| SetId (v : string)
| SetName (v : string)
| SetDuration (v : JS.number)
| SetActive (v : bool)
| SetColor (v : string).

Definition field_of (a : assignment) : field :=
  match a with
  | SetId _ => Id
  | SetName _ => Name
  | SetDuration _ => Duration
  | SetActive _ => Active
  | SetColor _ => Color
  end.

(** [{ ...phase, [field]: value }]. *)
Definition assign (a : assignment) (phase : t) : t :=
  match a with
  | SetId v => mk v (name phase) (duration phase) (active phase) (color phase)
  | SetName v => mk (id phase) v (duration phase) (active phase) (color phase)
  | SetDuration v => mk (id phase) (name phase) v (active phase) (color phase)
  | SetActive v => mk (id phase) (name phase) (duration phase) v (color phase)
  | SetColor v => mk (id phase) (name phase) (duration phase) (active phase) v
  end.

End Phase.

Module Intersection.

Record t : Type := mk {
  id : string;
  name : string;
  status : string;
  lastUpdated : string;
  phases : list Phase.t;
  vehicleCount : Z;
  avgWaitTime : Z
}.

End Intersection.

(** The component's [useState] cells. *)
Record State : Type := mkState {
  intersections : list Intersection.t;
  loading : bool;
  searchTerm : string;
  selectedIntersection : option Intersection.t;
  editDialogOpen : bool;
  editData : option Intersection.t;
  autoRefresh : bool
}.

(** ** Derivations over a phase sequence *)

Definition getTotalCycleTime (phases : list Phase.t) : JS.number :=
  JS.reduce (λ total phase, JS.add total (Phase.duration phase)) (JS.Int 0) phases.

Definition getActivePhase (phases : list Phase.t) : option Phase.t :=
  JS.or_else (JS.find Phase.active phases) (phases !! 0).

Definition getNextPhase (phases : list Phase.t) : option Phase.t :=
  let activeIndex := JS.findIndex Phase.active phases in
  JS.at_index phases (JS.rem (activeIndex + 1) (Z.of_nat (length phases))).

(** ** The [useState] setters *)

Definition setIntersections (v : list Intersection.t) (st : State) : State :=
  mkState v (loading st) (searchTerm st) (selectedIntersection st)
    (editDialogOpen st) (editData st) (autoRefresh st).

Definition setSearchTerm (v : string) (st : State) : State :=
  mkState (intersections st) (loading st) v (selectedIntersection st)
    (editDialogOpen st) (editData st) (autoRefresh st).

Definition setSelectedIntersection (v : option Intersection.t) (st : State) : State :=
  mkState (intersections st) (loading st) (searchTerm st) v
    (editDialogOpen st) (editData st) (autoRefresh st).

Definition setEditDialogOpen (v : bool) (st : State) : State :=
  mkState (intersections st) (loading st) (searchTerm st) (selectedIntersection st)
    v (editData st) (autoRefresh st).

Definition setEditData (v : option Intersection.t) (st : State) : State :=
  mkState (intersections st) (loading st) (searchTerm st) (selectedIntersection st)
    (editDialogOpen st) v (autoRefresh st).

(** ** Event handlers *)

Definition handleSearch (value : string) (st : State) : State :=
  setSearchTerm value st.

Definition handleEdit (intersection : Intersection.t) (st : State) : State :=
  setEditDialogOpen true
    (setEditData (Some intersection)
       (setSelectedIntersection (Some intersection) st)).

(** The callback of [intersections.map]: it reads [editData.id], which throws
    while [editData] is [null]. *)
Definition save_entry (editData : option Intersection.t) (int : Intersection.t)
  : JS.result Intersection.t :=
  draft ← JS.deref editData;
  mret (if String.eqb (Intersection.id int) (Intersection.id draft)
        then draft else int).

Definition handleSave (st : State) : JS.result State :=
  ints ← mapM (save_entry (editData st)) (intersections st);
  mret (setEditDialogOpen false (setIntersections ints st)).

Definition handlePhaseChange (phaseId : string) (a : Phase.assignment) (st : State)
  : JS.result State :=
  prev ← JS.deref (editData st);
  mret (setEditData
          (Some (Intersection.mk
                   (Intersection.id prev) (Intersection.name prev)
                   (Intersection.status prev) (Intersection.lastUpdated prev)
                   (map (λ phase, if String.eqb (Phase.id phase) phaseId
                                  then Phase.assign a phase else phase)
                        (Intersection.phases prev))
                   (Intersection.vehicleCount prev) (Intersection.avgWaitTime prev)))
          st).

Definition handleStatusChange (status : string) (st : State) : JS.result State :=
  prev ← JS.deref (editData st);
  mret (setEditData
          (Some (Intersection.mk
                   (Intersection.id prev) (Intersection.name prev)
                   status (Intersection.lastUpdated prev)
                   (map (λ phase,
                           Phase.mk (Phase.id phase) (Phase.name phase)
                             (Phase.duration phase) (Phase.active phase)
                             (if String.eqb status "active"
                              then (if Phase.active phase then "green" else "red")
                              else "yellow"))
                        (Intersection.phases prev))
                   (Intersection.vehicleCount prev) (Intersection.avgWaitTime prev)))
          st).

(** ** The search filter *)

Definition filteredIntersections (st : State) : list Intersection.t :=
  List.filter
    (λ intersection,
       JS.includes (JS.toLowerCase (Intersection.name intersection))
                   (JS.toLowerCase (searchTerm st)) ||
       JS.includes (JS.toLowerCase (Intersection.id intersection))
                   (JS.toLowerCase (searchTerm st)))
    (intersections st).

(** ** The page's data set *)

Definition mockIntersections : list Intersection.t :=
  [ Intersection.mk "int-001" "MG Road & Brigade Road" "active" "2023-06-15T10:30:00"
      [ Phase.mk "north-south" "North-South" 45 true "green";
        Phase.mk "east-west" "East-West" 40 false "red";
        Phase.mk "pedestrian" "Pedestrian" 20 false "red" ]
      124 45;
    Intersection.mk "int-002" "Indiranagar 100ft Road" "active" "2023-06-15T10:32:15"
      [ Phase.mk "north-south" "North-South" 60 true "green";
        Phase.mk "east-west" "East-West" 50 false "red" ]
      89 30;
    Intersection.mk "int-003" "Outer Ring Road & Marathahalli" "maintenance"
      "2023-06-15T09:15:00"
      [ Phase.mk "north-south" "North-South" 30 false "yellow";
        Phase.mk "east-west" "East-West" 30 false "yellow" ]
      0 0;
    Intersection.mk "int-004" "Koramangala 80ft Road" "inactive" "2023-06-14T22:10:00"
      [ Phase.mk "north-south" "North-South" 40 false "red";
        Phase.mk "east-west" "East-West" 40 true "green" ]
      0 0 ].

(** The state once the data has loaded: [useState] defaults, then
    [setIntersections(mockIntersections)] and [setLoading(false)]. *)
Definition loadedState : State :=
  mkState mockIntersections false "" None false None true.

(** * Vocabulary of the specification *)

(** [x], at index [i], is the first element of [arr] on which [f] holds. *)
Definition first_at {A} (f : A → bool) (arr : list A) (i : nat) (x : A) : Prop :=
  arr !! i = Some x ∧ f x = true ∧
  ∀ j y, j < i → arr !! j = Some y → f y = false.

(** [f] holds on no element of [arr]. *)
Definition nowhere {A} (f : A → bool) (arr : list A) : Prop :=
  Forall (λ x, f x = false) arr.

(** The spec's reading of "the index of the active phase": the index of the
    first phase flagged active, and [-1] when no phase is. *)
Definition active_index (phases : list Phase.t) (i : Z) : Prop :=
  (∃ p, first_at Phase.active phases (Z.to_nat i) p ∧ (0 ≤ i)%Z) ∨
  (nowhere Phase.active phases ∧ i = (-1)%Z).

(** The state of the spec's intersection phase model: the committed list
    and the draft being edited. The other cells ([loading], [searchTerm],
    [selectedIntersection], [editDialogOpen], [autoRefresh]) belong to the
    page around it. *)
Definition model_state (st : State) : list Intersection.t * option Intersection.t :=
  (intersections st, editData st).

(** [st'] has the cells of [st], but for the draft. *)
Definition only_draft_differs (st st' : State) : Prop :=
  intersections st' = intersections st ∧
  loading st' = loading st ∧
  searchTerm st' = searchTerm st ∧
  selectedIntersection st' = selectedIntersection st ∧
  editDialogOpen st' = editDialogOpen st ∧
  autoRefresh st' = autoRefresh st.

(** More than one phase of the sequence is flagged active. *)
Definition several_active (phases : list Phase.t) : Prop :=
  1 < length (List.filter Phase.active phases).

(** [phases'] is [phases] with the [active] flags after index [i] set
    arbitrarily, and nothing else changed. *)
Definition later_flags_differ (i : nat) (phases phases' : list Phase.t) : Prop :=
  length phases' = length phases ∧
  ∀ j p, phases !! j = Some p →
    ∃ p', phases' !! j = Some p' ∧
          (j ≤ i → p' = p) ∧
          (i < j → ∃ b, p' = Phase.assign (Phase.SetActive b) p).

(** The sum of a list of integers, written by recursion on the list. *)
Fixpoint sum_Z (l : list Z) : Z :=
  match l with
  | [] => 0
  | x :: l' => x + sum_Z l'
  end.

(** The integer a number stands for ([0] for an infinity and for [NaN]). *)
Definition int_of (n : JS.number) : Z :=
  match n with
  | JS.Int z => z
  | _ => 0%Z
  end.

(** The exact sum of the durations of a sequence of integer durations. *)
Definition duration_sum (phases : list Phase.t) : Z :=
  sum_Z ((int_of ∘ Phase.duration) <$> phases).

(** Every duration is an integer and their absolute values sum to at most
    [2 ^ 53]: each partial sum, in whatever order, is then an integer of
    absolute value at most [2 ^ 53], and the doubles hold all of those. *)
Definition exact_durations (phases : list Phase.t) : Prop :=
  Forall (λ phase, ∃ z, Phase.duration phase = JS.Int z) phases ∧
  (sum_Z ((Z.abs ∘ int_of ∘ Phase.duration) <$> phases) ≤ 2 ^ 53)%Z.

(** Pairs of representable integers on which [JS.add] is compared with the
    addition of the kernel's binary64 floats: small values, ties just above
    [2 ^ 53] and higher, both signs, cancellation, and overflow. *)
Definition add_samples : list (Z * Z) :=
  [ (45, 40); (0, 0); (5, -5); (1, 1); (2, 2 ^ 53);
    (2 ^ 53, 1); (2 ^ 53, 3); (2 ^ 53 + 2, 1); (2 ^ 53 + 2, 3);
    (2 ^ 53, 2 ^ 53); (2 ^ 53, -1); (- 2 ^ 53, -1); (- 2 ^ 53, -3);
    (2 ^ 54, -1); (2 ^ 54, -3); (2 ^ 54 + 4, -1);
    (2 ^ 60, 2 ^ 7); (2 ^ 60, 2 ^ 7 + 1); (2 ^ 60 + 2 ^ 8, 2 ^ 7);
    (2 ^ 60 + 2 ^ 8, 2 ^ 7 + 1); (2 ^ 60 + 2 ^ 8, -1);
    (2 ^ 100, 2 ^ 47); (2 ^ 100, 2 ^ 47 + 1); (2 ^ 100 + 2 ^ 48, 2 ^ 47);
    (2 ^ 1023, 2 ^ 1023);
    (2 ^ 1024 - 2 ^ 971, 2 ^ 970); (2 ^ 1024 - 2 ^ 971, 2 ^ 969);
    (2 ^ 1024 - 2 ^ 971, 2 ^ 970 - 2 ^ 920);
    (- (2 ^ 1024 - 2 ^ 971), - 2 ^ 970);
    (2 ^ 1024 - 2 ^ 971, 2 ^ 1024 - 2 ^ 971) ]%Z.

Definition add_agrees (p : Z * Z) : bool :=
  match JS.number_of_float
          (PrimFloat.add (JS.float_of_Z p.1) (JS.float_of_Z p.2)),
        JS.add (JS.Int p.1) (JS.Int p.2) with
  | JS.Int a, JS.Int b => (a =? b)%Z
  | JS.PosInfinity, JS.PosInfinity
  | JS.NegInfinity, JS.NegInfinity
  | JS.NaN, JS.NaN => true
  | _, _ => false
  end.

(** The field an assignment names holds the assigned value. *)
Definition carries (a : Phase.assignment) (phase : Phase.t) : Prop :=
  match a with
  | Phase.SetId v => Phase.id phase = v
  | Phase.SetName v => Phase.name phase = v
  | Phase.SetDuration v => Phase.duration phase = v
  | Phase.SetActive v => Phase.active phase = v
  | Phase.SetColor v => Phase.color phase = v
  end.

(** Two phases agree on every field other than [f]. *)
Definition agree_except (f : Phase.field) (p q : Phase.t) : Prop :=
  (f ≠ Phase.Id → Phase.id p = Phase.id q) ∧
  (f ≠ Phase.Name → Phase.name p = Phase.name q) ∧
  (f ≠ Phase.Duration → Phase.duration p = Phase.duration q) ∧
  (f ≠ Phase.Active → Phase.active p = Phase.active q) ∧
  (f ≠ Phase.Color → Phase.color p = Phase.color q).

(** The letters that have two cases among the code units below 256, as
    Unicode lists them: the 26 letters of the basic alphabet, and the
    Latin-1 letters U+00C0-U+00D6 and U+00D8-U+00DE with their small forms
    U+00E0-U+00F6 and U+00F8-U+00FE (given by code unit). *)
Definition capital_letters : string := "ABCDEFGHIJKLMNOPQRSTUVWXYZ".

Definition small_letters : string := "abcdefghijklmnopqrstuvwxyz".

Definition latin1_case_codes : list (N * N) :=
  [ (192, 224); (193, 225); (194, 226); (195, 227); (196, 228); (197, 229);
    (198, 230); (199, 231); (200, 232); (201, 233); (202, 234); (203, 235);
    (204, 236); (205, 237); (206, 238); (207, 239); (208, 240); (209, 241);
    (210, 242); (211, 243); (212, 244); (213, 245); (214, 246); (216, 248);
    (217, 249); (218, 250); (219, 251); (220, 252); (221, 253); (222, 254) ]%N.

Definition case_pairs : list (ascii * ascii) :=
  zip (String.list_ascii_of_string capital_letters)
      (String.list_ascii_of_string small_letters)
  ++ (prod_map ascii_of_N ascii_of_N <$> latin1_case_codes).

(** [u] is a capital and [l] its lower-case form. *)
Definition case_pair (u l : ascii) : Prop := (u, l) ∈ case_pairs.

(** The same letter, whatever the case. *)
Definition same_letter (c d : ascii) : Prop :=
  c = d ∨ case_pair c d ∨ case_pair d c.

(** Strings of equal length with the same letter at every position. *)
Inductive eq_ignoring_case : string → string → Prop :=
| eic_empty : eq_ignoring_case "" ""
| eic_letter c d s t :
    same_letter c d → eq_ignoring_case s t →
    eq_ignoring_case (String c s) (String d t).

(** [t] occurs in [s], case ignored: some segment of [s] is [t] up to the
    case of its letters. *)
Definition contains_ignoring_case (s t : string) : Prop :=
  ∃ pre mid post, s = pre +:+ mid +:+ post ∧ eq_ignoring_case mid t.

(** The spec's filter condition. *)
Definition matches_search (term : string) (intersection : Intersection.t) : Prop :=
  contains_ignoring_case (Intersection.name intersection) term ∨
  contains_ignoring_case (Intersection.id intersection) term.

(** * Sample states *)

Definition mgRoadPhases : list Phase.t :=
  [ Phase.mk "north-south" "North-South" 45 true "green";
    Phase.mk "east-west" "East-West" 40 false "red";
    Phase.mk "pedestrian" "Pedestrian" 20 false "red" ].

Definition marathahalliPhases : list Phase.t :=
  [ Phase.mk "north-south" "North-South" 30 false "yellow";
    Phase.mk "east-west" "East-West" 30 false "yellow" ].

Definition bothActivePhases : list Phase.t :=
  [ Phase.mk "north-south" "North-South" 40 false "red";
    Phase.mk "east-west" "East-West" 40 true "green";
    Phase.mk "pedestrian" "Pedestrian" 20 true "green" ].

(** Durations the text field of the dialog accepts, in two orders. *)
Definition hugePhases : list Phase.t :=
  [ Phase.mk "north-south" "North-South" 9007199254740992 true "green";
    Phase.mk "east-west" "East-West" 1 false "red";
    Phase.mk "pedestrian" "Pedestrian" 1 false "red" ].

Definition hugePhasesReordered : list Phase.t :=
  [ Phase.mk "east-west" "East-West" 1 false "red";
    Phase.mk "pedestrian" "Pedestrian" 1 false "red";
    Phase.mk "north-south" "North-South" 9007199254740992 true "green" ].

Definition mgRoad : Intersection.t :=
  Intersection.mk "int-001" "MG Road & Brigade Road" "active" "2023-06-15T10:30:00"
    mgRoadPhases 124 45.

Definition indiranagar : Intersection.t :=
  Intersection.mk "int-002" "Indiranagar 100ft Road" "active" "2023-06-15T10:32:15"
    [ Phase.mk "north-south" "North-South" 60 true "green";
      Phase.mk "east-west" "East-West" 50 false "red" ]
    89 30.

(** The state after the user opened the dialog on the second intersection. *)
Definition editingState : State := handleEdit indiranagar loadedState.

(** The draft of the second intersection after its first phase was set to
    55 seconds. *)
Definition editedState : State :=
  match handlePhaseChange "north-south" (Phase.SetDuration 55) editingState with
  | JS.Ok st => st
  | JS.Throw _ => editingState
  end.

(** The dialog open on a draft whose [id] is not in the committed list. *)
Definition strayDraftState : State :=
  handleEdit
    (Intersection.mk "int-005" "Hebbal Flyover" "inactive" "2023-06-15T11:00:00"
       marathahalliPhases 0 0)
    loadedState.

(** * The rest of the Traffic Lights page *)

Definition setLoading (v : bool) (st : State) : State :=
  mkState (intersections st) v (searchTerm st) (selectedIntersection st)
    (editDialogOpen st) (editData st) (autoRefresh st).

Definition setAutoRefresh (v : bool) (st : State) : State :=
  mkState (intersections st) (loading st) (searchTerm st) (selectedIntersection st)
    (editDialogOpen st) (editData st) v.

(** [fetchData], run on mount and by the refresh interval: its synchronous
    part, and the callback its [setTimeout] runs. *)
Definition fetchData (st : State) : State := setLoading true st.

Definition fetchData_timeout (st : State) : State :=
  setLoading false (setIntersections mockIntersections st).

(** What one card of the grid displays, but for the "updated ... ago" text,
    which depends on the clock. *)
Record Card : Type := mkCard {
  cardTitle : string;
  cardStatus : string;
  redLit : bool;
  yellowLit : bool;
  greenLit : bool;
  currentName : string;
  remaining : JS.number;
  nextName : string;
  sliderDisabled : bool;
  cycleTime : JS.number;
  vehicles : Z;
  avgWait : Z
}.

(** The callback of [filteredIntersections.map] in the markup. It reads
    [activePhase.color] and [nextPhase.name] without a guard, which throws
    when the derivation returned [undefined]. *)
Definition renderCard (intersection : Intersection.t) : JS.result Card :=
  let activePhase := getActivePhase (Intersection.phases intersection) in
  let nextPhase := getNextPhase (Intersection.phases intersection) in
  let totalCycleTime := getTotalCycleTime (Intersection.phases intersection) in
  active ← JS.deref activePhase;
  next ← JS.deref nextPhase;
  mret (mkCard
          (Intersection.name intersection)
          (Intersection.status intersection)
          (String.eqb (Phase.color active) "red")
          (String.eqb (Phase.color active) "yellow")
          (String.eqb (Phase.color active) "green")
          (Phase.name active)
          (Phase.duration active)
          (Phase.name next)
          (negb (String.eqb (Intersection.status intersection) "active"))
          totalCycleTime
          (Intersection.vehicleCount intersection)
          (Intersection.avgWaitTime intersection)).

(** The body of the page: a spinner while loading, the grid of cards
    otherwise. *)
Inductive Body : Type :=
| Spinner
| Grid (cards : list Card).

Definition renderBody (st : State) : JS.result Body :=
  if loading st then mret Spinner
  else cards ← mapM renderCard (filteredIntersections st); mret (Grid cards).

(** The two inputs of the edit dialog, and a run of them. *)
Inductive dialog_input : Type :=
| PhaseChange (phaseId : string) (a : Phase.assignment)
| StatusChange (status : string).

Definition dialog_step (st : State) (e : dialog_input) : JS.result State :=
  match e with
  | PhaseChange phaseId a => handlePhaseChange phaseId a st
  | StatusChange status => handleStatusChange status st
  end.

Fixpoint dialog_run (es : list dialog_input) (st : State) : JS.result State :=
  match es with
  | [] => mret st
  | e :: es' => st' ← dialog_step st e; dialog_run es' st'
  end.

(** The entry [handleSave] stores in place of [int] for a given draft. *)
Definition saved_entry (draft int : Intersection.t) : Intersection.t :=
  if String.eqb (Intersection.id int) (Intersection.id draft) then draft else int.

(** Every committed intersection, and the draft if there is one, has at
    least one phase. *)
Definition phases_nonempty (st : State) : Prop :=
  Forall (λ int, Intersection.phases int ≠ []) (intersections st) ∧
  (∀ draft, editData st = Some draft → Intersection.phases draft ≠ []).

(** * The Violations page *)

Module Violation.

Record t : Type := mk {
  id : Z;
  type : string;
  licensePlate : string;
  location : string;
  timestamp : string;
  status : string;
  imageUrl : string;
  speed : Z
}.

End Violation.

Module Filters.

Record t : Type := mk {
  type : string;
  status : string
}.

(** The computed key [[filterType]: value] of [handleFilterChange], for the
    two keys the filters have. *)
Inductive key : Type := Type_ | Status.

(** [{ ...prev, [filterType]: value }]. *)
Definition assign (filterType : key) (value : string) (prev : t) : t :=
  match filterType with
  | Type_ => mk value (status prev)
  | Status => mk (type prev) value
  end.

End Filters.

Module SelectOption.

Record t : Type := mk {
  value : string;
  label : string
}.

End SelectOption.

Module ViolationsPage.

Definition mockViolations : list Violation.t :=
  [ Violation.mk 1 "no_helmet" "KA01AB1234" "MG Road, Downtown"
      "2023-06-15T09:23:17" "pending" "https://via.placeholder.com/150" 45;
    Violation.mk 2 "no_seatbelt" "KA02CD5678" "Brigade Road"
      "2023-06-15T10:15:42" "processed" "https://via.placeholder.com/150" 52;
    Violation.mk 3 "triple_riding" "KA03EF9012" "Indiranagar 100ft Road"
      "2023-06-15T11:07:33" "pending" "https://via.placeholder.com/150" 48;
    Violation.mk 4 "wrong_way" "KA04GH3456" "Outer Ring Road"
      "2023-06-15T12:45:21" "rejected" "https://via.placeholder.com/150" 67;
    Violation.mk 5 "no_helmet" "KA05IJ7890" "Koramangala 80ft Road"
      "2023-06-15T14:22:10" "processed" "https://via.placeholder.com/150" 55 ].

Definition violationTypes : list SelectOption.t :=
  [ SelectOption.mk "all" "All Types";
    SelectOption.mk "no_helmet" "No Helmet";
    SelectOption.mk "no_seatbelt" "No Seatbelt";
    SelectOption.mk "triple_riding" "Triple Riding";
    SelectOption.mk "wrong_way" "Wrong Way" ].

Definition statusOptions : list SelectOption.t :=
  [ SelectOption.mk "all" "All Statuses";
    SelectOption.mk "pending" "Pending";
    SelectOption.mk "processed" "Processed";
    SelectOption.mk "rejected" "Rejected" ].

(** The component's [useState] cells. [anchorEl] holds a DOM element, kept
    as an opaque handle. *)
Record State : Type := mkState {
  violations : list Violation.t;
  loading : bool;
  page : Z;
  rowsPerPage : Z;
  searchTerm : string;
  filters : Filters.t;
  anchorEl : option nat;
  selectedViolation : option Violation.t;
  imageDialogOpen : bool
}.

Definition initialState : State :=
  mkState [] true 0 10 "" (Filters.mk "all" "all") None None false.

Definition setViolations (v : list Violation.t) (st : State) : State :=
  mkState v (loading st) (page st) (rowsPerPage st) (searchTerm st) (filters st)
    (anchorEl st) (selectedViolation st) (imageDialogOpen st).

Definition setLoading (v : bool) (st : State) : State :=
  mkState (violations st) v (page st) (rowsPerPage st) (searchTerm st) (filters st)
    (anchorEl st) (selectedViolation st) (imageDialogOpen st).

Definition setPage (v : Z) (st : State) : State :=
  mkState (violations st) (loading st) v (rowsPerPage st) (searchTerm st) (filters st)
    (anchorEl st) (selectedViolation st) (imageDialogOpen st).

Definition setRowsPerPage (v : Z) (st : State) : State :=
  mkState (violations st) (loading st) (page st) v (searchTerm st) (filters st)
    (anchorEl st) (selectedViolation st) (imageDialogOpen st).

Definition setSearchTerm (v : string) (st : State) : State :=
  mkState (violations st) (loading st) (page st) (rowsPerPage st) v (filters st)
    (anchorEl st) (selectedViolation st) (imageDialogOpen st).

Definition setFilters (v : Filters.t) (st : State) : State :=
  mkState (violations st) (loading st) (page st) (rowsPerPage st) (searchTerm st) v
    (anchorEl st) (selectedViolation st) (imageDialogOpen st).

Definition setAnchorEl (v : option nat) (st : State) : State :=
  mkState (violations st) (loading st) (page st) (rowsPerPage st) (searchTerm st)
    (filters st) v (selectedViolation st) (imageDialogOpen st).

Definition setSelectedViolation (v : option Violation.t) (st : State) : State :=
  mkState (violations st) (loading st) (page st) (rowsPerPage st) (searchTerm st)
    (filters st) (anchorEl st) v (imageDialogOpen st).

Definition setImageDialogOpen (v : bool) (st : State) : State :=
  mkState (violations st) (loading st) (page st) (rowsPerPage st) (searchTerm st)
    (filters st) (anchorEl st) (selectedViolation st) v.

(** [fetchViolations]: its synchronous part and the callback of its
    [setTimeout]. *)
Definition fetchViolations (st : State) : State := setLoading true st.

Definition fetchViolations_timeout (st : State) : State :=
  setLoading false (setViolations mockViolations st).

Definition handleChangePage (newPage : Z) (st : State) : State :=
  setPage newPage st.

(** [value] is the integer that [parseInt(event.target.value, 10)] yields;
    the menu offers 5, 10 and 25. *)
Definition handleChangeRowsPerPage (value : Z) (st : State) : State :=
  setPage 0 (setRowsPerPage value st).

Definition handleSearch (value : string) (st : State) : State :=
  setPage 0 (setSearchTerm value st).

Definition handleFilterChange (filterType : Filters.key) (value : string) (st : State)
  : State :=
  setPage 0 (setFilters (Filters.assign filterType value (filters st)) st).

Definition handleMenuOpen (currentTarget : nat) (violation : Violation.t) (st : State)
  : State :=
  setAnchorEl (Some currentTarget) (setSelectedViolation (Some violation) st).

Definition handleMenuClose (st : State) : State := setAnchorEl None st.

Definition handleViewImage (st : State) : State :=
  handleMenuClose (setImageDialogOpen true st).

Definition handleImageDialogClose (st : State) : State :=
  setImageDialogOpen false st.

Definition getViolationLabel (type : string) : string :=
  match JS.find (λ v, String.eqb (SelectOption.value v) type) violationTypes with
  | Some v => SelectOption.label v
  | None => type
  end.

Definition getStatusColor (status : string) : string :=
  if String.eqb status "pending" then "warning"
  else if String.eqb status "processed" then "success"
  else if String.eqb status "rejected" then "error"
  else "default".

Definition filteredViolations (st : State) : list Violation.t :=
  List.filter
    (λ violation,
       let matchesSearch :=
         JS.includes (JS.toLowerCase (Violation.licensePlate violation))
                     (JS.toLowerCase (searchTerm st)) ||
         JS.includes (JS.toLowerCase (Violation.location violation))
                     (JS.toLowerCase (searchTerm st)) in
       let matchesType :=
         String.eqb (Filters.type (filters st)) "all" ||
         String.eqb (Violation.type violation) (Filters.type (filters st)) in
       let matchesStatus :=
         String.eqb (Filters.status (filters st)) "all" ||
         String.eqb (Violation.status violation) (Filters.status (filters st)) in
       matchesSearch && matchesType && matchesStatus)
    (violations st).

(** The rows of the current page:
    [filteredViolations.slice(page * rowsPerPage, page * rowsPerPage + rowsPerPage)]. *)
Definition pageRows (st : State) : list Violation.t :=
  JS.slice (page st * rowsPerPage st) (page st * rowsPerPage st + rowsPerPage st)
    (filteredViolations st).

(** What the table body shows; a row is given by the violation it
    displays. *)
Inductive TableBody : Type :=
| LoadingRow
| NoViolationsRow
| Rows (rows : list Violation.t).

Definition tableBody (st : State) : TableBody :=
  if loading st then LoadingRow
  else if (Z.of_nat (length (filteredViolations st)) =? 0)%Z then NoViolationsRow
  else Rows (pageRows st).

(** The filter condition in words: the plate or the location contains the
    search string, case ignored, and each of the two filters is "all" or
    equal to the violation's field. *)
Definition matches_filters (term : string) (f : Filters.t) (violation : Violation.t)
  : Prop :=
  (contains_ignoring_case (Violation.licensePlate violation) term ∨
   contains_ignoring_case (Violation.location violation) term) ∧
  (Filters.type f = "all" ∨ Violation.type violation = Filters.type f) ∧
  (Filters.status f = "all" ∨ Violation.status violation = Filters.status f).

End ViolationsPage.

(** The table is on its first page and shows the first [rowsPerPage]
    filtered violations, so at least one when there is any. *)
Definition first_page_shown (st : ViolationsPage.State) : Prop :=
  ViolationsPage.page st = 0%Z ∧
  ViolationsPage.pageRows st
  = take (Z.to_nat (ViolationsPage.rowsPerPage st))
      (ViolationsPage.filteredViolations st) ∧
  (ViolationsPage.filteredViolations st ≠ [] → ViolationsPage.pageRows st ≠ []).

(** * Properties *)

(** ** What [find] and [findIndex] return *)

Section first_match.
Context {A : Type} (f : A → bool).

Lemma list_find_first_at arr i x :
  list_find (λ x, Is_true (f x)) arr = Some (i, x) ↔ first_at f arr i x.
Proof.
  rewrite list_find_Some. unfold first_at. split.
  - intros (Hi & Hx & Hlt). split_and!; [done | by apply Is_true_true |].
    intros j y Hj Hy. apply Is_true_false. eauto.
  - intros (Hi & Hx & Hlt). split_and!; [done | by apply Is_true_true |].
    intros j y Hy Hj. apply Is_true_false. eauto.
Qed.

Lemma list_find_nowhere arr :
  list_find (λ x, Is_true (f x)) arr = None ↔ nowhere f arr.
Proof.
  rewrite list_find_None. unfold nowhere.
  apply Forall_proper; [|done]. intros x. apply Is_true_false.
Qed.

Lemma first_at_unique arr i x j y :
  first_at f arr i x → first_at f arr j y → i = j ∧ x = y.
Proof.
  intros Hi%list_find_first_at Hj%list_find_first_at. by simplify_eq.
Qed.

Lemma first_at_or_nowhere arr : (∃ i x, first_at f arr i x) ∨ nowhere f arr.
Proof.
  destruct (list_find (λ x, Is_true (f x)) arr) as [[i x]|] eqn:E.
  - left. exists i, x. by apply list_find_first_at.
  - right. by apply list_find_nowhere.
Qed.

Lemma find_first_at arr i x : first_at f arr i x → JS.find f arr = Some x.
Proof. intros H%list_find_first_at. unfold JS.find. by rewrite H. Qed.

Lemma find_nowhere arr : nowhere f arr → JS.find f arr = None.
Proof. intros H%list_find_nowhere. unfold JS.find. by rewrite H. Qed.

Lemma findIndex_first_at arr i x :
  first_at f arr i x → JS.findIndex f arr = Z.of_nat i.
Proof. intros H%list_find_first_at. unfold JS.findIndex. by rewrite H. Qed.

Lemma findIndex_nowhere arr : nowhere f arr → JS.findIndex f arr = (-1)%Z.
Proof. intros H%list_find_nowhere. unfold JS.findIndex. by rewrite H. Qed.

End first_match.

(** ** Indexing with a remainder *)

Lemma at_index_rem {A} (arr : list A) (k : nat) :
  arr ≠ [] →
  JS.at_index arr (JS.rem (Z.of_nat k) (Z.of_nat (length arr)))
  = arr !! (k `mod` length arr).
Proof.
  intros Hne. unfold JS.rem, JS.at_index.
  assert (length arr ≠ 0) by (by destruct arr).
  destruct (decide _) as [|_]; [lia|].
  rewrite Z.rem_mod_nonneg by lia.
  destruct (decide _) as [_|Hneg].
  - by rewrite <- Nat2Z.inj_mod, Nat2Z.id.
  - destruct Hneg. apply Z.mod_pos_bound. lia.
Qed.

Lemma at_index_rem_is_Some {A} (arr : list A) (k : nat) :
  arr ≠ [] → is_Some (arr !! (k `mod` length arr)).
Proof.
  intros Hne. apply lookup_lt_is_Some, Nat.mod_upper_bound. by destruct arr.
Qed.

(** ** The phase derivations *)

Lemma active_index_exists phases : ∃ i, active_index phases i.
Proof.
  destruct (first_at_or_nowhere Phase.active phases) as [(i & p & H)|H].
  - exists (Z.of_nat i). left. exists p. rewrite Nat2Z.id. split; [done | lia].
  - exists (-1)%Z. by right.
Qed.

Lemma getNextPhase_first_at phases i p :
  first_at Phase.active phases i p →
  getNextPhase phases = phases !! ((i + 1) `mod` length phases).
Proof.
  intros Hp. unfold getNextPhase.
  rewrite (findIndex_first_at _ _ _ _ Hp).
  replace (Z.of_nat i + 1)%Z with (Z.of_nat (i + 1)) by lia.
  apply at_index_rem. intros ->. by destruct Hp as [? _].
Qed.

Lemma getNextPhase_nowhere phases :
  nowhere Phase.active phases → getNextPhase phases = phases !! 0.
Proof.
  intros Hn. unfold getNextPhase. rewrite (findIndex_nowhere _ _ Hn).
  destruct phases as [|p phases]; [done|].
  change (-1 + 1)%Z with (Z.of_nat 0). rewrite at_index_rem by done.
  by rewrite Nat.Div0.mod_0_l.
Qed.

Lemma getActivePhase_first_at phases i p :
  first_at Phase.active phases i p → getActivePhase phases = Some p.
Proof.
  intros Hp. unfold getActivePhase. by rewrite (find_first_at _ _ _ _ Hp).
Qed.

Lemma getActivePhase_nowhere phases :
  nowhere Phase.active phases → getActivePhase phases = phases !! 0.
Proof.
  intros Hn. unfold getActivePhase. by rewrite (find_nowhere _ _ Hn).
Qed.

Example mgRoadPhases_mock :
  Intersection.phases <$> mockIntersections !! 0 = Some mgRoadPhases.
Proof. reflexivity. Qed.

Example getNextPhase_mock :
  Phase.id <$> getNextPhase mgRoadPhases = Some "east-west"%string.
Proof. reflexivity. Qed.

Example getNextPhase_empty : getNextPhase [] = None.
Proof. reflexivity. Qed.

(** C1. For every phase sequence, [getNextPhase] returns the phase at index
    [(i + 1) mod length], where [i] is the index of the first phase whose
    [active] flag is true, and [i] is [-1] (so that the result is the phase
    at index 0) when no phase is flagged. On the empty sequence no index
    exists ([0 % 0] is [NaN]) and the result is [undefined]. In particular:
    on a 2-phase sequence with [phase[0]] active the result is [phase[1]];
    on a 3-phase sequence whose active phase is [phase[2]] (so [i = 2]) the
    result is [phase[0]]. *)
Theorem getNextPhase_round_robin (phases : list Phase.t) (i : Z) :
  active_index phases i →
  (phases ≠ [] →
   ∃ p, getNextPhase phases = Some p ∧
        phases !! Z.to_nat ((i + 1) `mod` Z.of_nat (length phases)) = Some p) ∧
  (phases = [] → getNextPhase phases = None) ∧
  (∀ p0 p1, phases = [p0; p1] → Phase.active p0 = true →
            getNextPhase phases = Some p1) ∧
  (∀ p0 p1 p2, phases = [p0; p1; p2] → Phase.active p2 = true → i = 2%Z →
               getNextPhase phases = Some p0).
Proof.
  intros Hi. split_and!.
  - intros Hne.
    assert (length phases ≠ 0) by (by destruct phases).
    destruct Hi as [(p & Hp & Hi)|[Hn ->]].
    + rewrite (getNextPhase_first_at _ _ _ Hp).
      replace (Z.to_nat ((i + 1) `mod` Z.of_nat (length phases)))
        with ((Z.to_nat i + 1) `mod` length phases).
      * destruct (at_index_rem_is_Some phases (Z.to_nat i + 1) Hne) as [q Hq].
        eauto.
      * apply Nat2Z.inj. rewrite Z2Nat.id by (apply Z.mod_pos_bound; lia).
        rewrite Nat2Z.inj_mod. f_equal. lia.
    + rewrite (getNextPhase_nowhere _ Hn).
      change (-1 + 1)%Z with 0%Z. rewrite Z.mod_0_l by lia.
      destruct phases as [|p phases]; [done|]. by exists p.
  - by intros ->.
  - intros p0 p1 -> H0.
    rewrite (getNextPhase_first_at [p0; p1] 0 p0); [done|].
    split_and!; [done | done | intros; lia].
  - intros p0 p1 p2 -> _ ->.
    destruct Hi as [(p & Hp & _)|[_ ?]]; [|done].
    by rewrite (getNextPhase_first_at _ _ _ Hp).
Qed.

Lemma getNextPhase_round_robin_witness :
  active_index mgRoadPhases 0 ∧
  ∃ p, getNextPhase mgRoadPhases = Some p ∧ mgRoadPhases !! 1 = Some p.
Proof.
  assert (H : active_index mgRoadPhases 0).
  { left. eexists. split; [|done].
    split_and!; [reflexivity | reflexivity | intros j y Hj; simpl in Hj; lia]. }
  split; [exact H|].
  apply (getNextPhase_round_robin mgRoadPhases 0 H). discriminate.
Defined.

(** C9. On a one-phase sequence [getNextPhase] returns that phase, whether
    or not it is flagged active. *)
Theorem getNextPhase_singleton (p : Phase.t) : getNextPhase [p] = Some p.
Proof.
  destruct (Phase.active p) eqn:Hp.
  - rewrite (getNextPhase_first_at [p] 0 p); [done|].
    split_and!; [done | done | intros; lia].
  - rewrite getNextPhase_nowhere; [done|]. by repeat constructor.
Qed.

(** C2. On a non-empty phase sequence [getActivePhase] always returns a
    phase: the first phase whose [active] flag is true when there is one,
    and the first phase of the sequence when no phase is flagged. *)
Theorem getActivePhase_first_or_head (phases : list Phase.t) :
  phases ≠ [] →
  (∃ p, getActivePhase phases = Some p) ∧
  (∀ i p, first_at Phase.active phases i p → getActivePhase phases = Some p) ∧
  (nowhere Phase.active phases → getActivePhase phases = head phases).
Proof.
  intros Hne. split_and!.
  - destruct (first_at_or_nowhere Phase.active phases) as [(i & p & H)|H].
    + exists p. by eapply getActivePhase_first_at.
    + rewrite (getActivePhase_nowhere _ H).
      destruct phases as [|p phases]; [done|]. by exists p.
  - apply getActivePhase_first_at.
  - intros H. rewrite (getActivePhase_nowhere _ H). by destruct phases.
Qed.

Lemma getActivePhase_first_or_head_witness :
  marathahalliPhases ≠ [] ∧
  nowhere Phase.active marathahalliPhases ∧
  getActivePhase marathahalliPhases = head marathahalliPhases.
Proof.
  assert (Hne : marathahalliPhases ≠ []) by discriminate.
  assert (Hn : nowhere Phase.active marathahalliPhases)
    by (repeat constructor).
  split_and!; [exact Hne | exact Hn |].
  by apply (getActivePhase_first_or_head marathahalliPhases Hne).
Defined.

(** ** More than one phase flagged active *)

Lemma filter_nowhere {A} (f : A → bool) arr :
  nowhere f arr → List.filter f arr = [].
Proof.
  induction 1 as [|x arr Hx _ IH]; simpl; [done|]. by rewrite Hx.
Qed.

Lemma first_at_later_flags i p phases phases' :
  first_at Phase.active phases i p →
  later_flags_differ i phases phases' →
  first_at Phase.active phases' i p.
Proof.
  intros (Hi & Hp & Hlt) [Hlen Hsame]. split_and!; [|done|].
  - destruct (Hsame i p Hi) as (p' & Hp' & Heq & _). by rewrite Hp', Heq.
  - intros j y Hj Hy.
    assert (is_Some (phases !! j)) as [q Hq].
    { apply lookup_lt_is_Some. rewrite <- Hlen. by eapply lookup_lt_Some. }
    destruct (Hsame j q Hq) as (q' & Hq' & Heq & _).
    rewrite Hq' in Hy. injection Hy as <-. rewrite Heq by lia. eauto.
Qed.

(** C10. When more than one phase is flagged active, both derivations are
    still determined: with [p] at index [i] the first flagged phase,
    [getActivePhase] returns [p] and [getNextPhase] returns the phase at
    index [(i + 1) mod length]; setting the [active] flags of the phases
    after [i] to anything else changes neither the phase [getActivePhase]
    returns nor the index [getNextPhase] reads. *)
Theorem several_active_first_wins (phases : list Phase.t) :
  several_active phases →
  ∃ i p,
    first_at Phase.active phases i p ∧
    getActivePhase phases = Some p ∧
    getNextPhase phases = phases !! ((i + 1) `mod` length phases) ∧
    is_Some (getNextPhase phases) ∧
    ∀ phases', later_flags_differ i phases phases' →
      getActivePhase phases' = Some p ∧
      getNextPhase phases' = phases' !! ((i + 1) `mod` length phases).
Proof.
  intros Hs.
  destruct (first_at_or_nowhere Phase.active phases) as [(i & p & H)|H].
  - exists i, p.
    assert (Hne : phases ≠ []) by (intros ->; by destruct H as [? _]).
    split_and!; [done|..].
    + by eapply getActivePhase_first_at.
    + by apply getNextPhase_first_at with p.
    + rewrite (getNextPhase_first_at _ _ _ H). by apply at_index_rem_is_Some.
    + intros phases' Hl.
      pose proof (first_at_later_flags _ _ _ _ H Hl) as H'.
      destruct Hl as [Hlen _]. split.
      * by eapply getActivePhase_first_at.
      * rewrite <- Hlen. by apply getNextPhase_first_at with p.
  - unfold several_active in Hs. rewrite (filter_nowhere _ _ H) in Hs.
    simpl in Hs. lia.
Qed.

Lemma several_active_first_wins_witness :
  several_active bothActivePhases ∧
  ∃ i p,
    first_at Phase.active bothActivePhases i p ∧
    getActivePhase bothActivePhases = Some p ∧
    getNextPhase bothActivePhases = bothActivePhases !! ((i + 1) `mod` 3).
Proof.
  assert (H : several_active bothActivePhases)
    by (unfold several_active; simpl; lia).
  split; [exact H|].
  destruct (several_active_first_wins bothActivePhases H)
    as (i & p & H1 & H2 & H3 & _).
  by exists i, p.
Defined.

Example several_active_mock :
  Phase.id <$> getActivePhase bothActivePhases = Some "east-west"%string ∧
  Phase.id <$> getNextPhase bothActivePhases = Some "pedestrian"%string.
Proof. split; reflexivity. Qed.

(** ** Total cycle time *)

Example add_is_binary64_addition : forallb add_agrees add_samples = true.
Proof. vm_compute. reflexivity. Qed.

Lemma round_small z : (Z.abs z ≤ 2 ^ 53)%Z → JS.round z = JS.Int z.
Proof.
  intros Hz. unfold JS.round. cbv zeta.
  destruct (Z.leb_spec (Z.abs z) (2 ^ 53)) as [_|Hgt]; [done | lia].
Qed.

Lemma sum_Z_Permutation (l l' : list Z) : l ≡ₚ l' → sum_Z l = sum_Z l'.
Proof.
  induction 1 as [|x l l' _ IH|x y l|l l' l'' _ IH1 _ IH2]; simpl.
  - done.
  - by rewrite IH.
  - lia.
  - by rewrite IH1.
Qed.

Lemma sum_Z_abs (phases : list Phase.t) :
  (Z.abs (sum_Z ((int_of ∘ Phase.duration) <$> phases))
   ≤ sum_Z ((Z.abs ∘ int_of ∘ Phase.duration) <$> phases))%Z ∧
  (0 ≤ sum_Z ((Z.abs ∘ int_of ∘ Phase.duration) <$> phases))%Z.
Proof.
  induction phases as [|p phases [IH1 IH2]]; [simpl; lia|].
  rewrite !fmap_cons. cbn [sum_Z compose]. lia.
Qed.

(** The fold of [getTotalCycleTime] from any integer start, as long as the
    magnitudes stay within the exact range. *)
Lemma reduce_add_exact (phases : list Phase.t) (init : Z) :
  Forall (λ phase, ∃ z, Phase.duration phase = JS.Int z) phases →
  (Z.abs init + sum_Z ((Z.abs ∘ int_of ∘ Phase.duration) <$> phases) ≤ 2 ^ 53)%Z →
  JS.reduce (λ total phase, JS.add total (Phase.duration phase)) (JS.Int init) phases
  = JS.Int (init + duration_sum phases).
Proof.
  unfold JS.reduce, duration_sum. revert init.
  induction phases as [|p phases IH]; intros init Hint Hbound.
  - simpl. f_equal. lia.
  - apply Forall_cons in Hint as [[z Hz] Hint].
    rewrite !fmap_cons in *. cbn [fold_left sum_Z compose] in *.
    rewrite Hz in *. cbn [int_of JS.add] in *.
    pose proof (sum_Z_abs phases) as [_ Hpos].
    rewrite round_small by lia.
    rewrite IH by (done || lia). f_equal. lia.
Qed.

Lemma total_exact (phases : list Phase.t) :
  exact_durations phases → getTotalCycleTime phases = JS.Int (duration_sum phases).
Proof.
  intros [Hint Hbound]. unfold getTotalCycleTime.
  by rewrite reduce_add_exact by (done || lia).
Qed.

Lemma exact_durations_Permutation phases phases' :
  phases ≡ₚ phases' → exact_durations phases →
  exact_durations phases' ∧ duration_sum phases' = duration_sum phases.
Proof.
  intros Hperm [Hint Hbound]. unfold exact_durations, duration_sum.
  assert (Hsum : ∀ f : Phase.t → Z, sum_Z (f <$> phases') = sum_Z (f <$> phases)).
  { intros f. apply sum_Z_Permutation. by rewrite Hperm. }
  split_and!.
  - rewrite Forall_forall in *. intros phase Hin. apply Hint. by rewrite Hperm.
  - by rewrite Hsum.
  - apply Hsum.
Qed.

(** C5, as amended. On a phase sequence whose durations are integers with
    absolute values summing to at most [2 ^ 53], [getTotalCycleTime] is the
    sum of the [duration] fields; it takes the same value on every
    reordering of the sequence; and durations 45, 40, 20 give 105. *)
Theorem getTotalCycleTime_sum (phases : list Phase.t) :
  exact_durations phases →
  getTotalCycleTime phases = JS.Int (duration_sum phases) ∧
  (∀ phases', phases ≡ₚ phases' →
              getTotalCycleTime phases' = getTotalCycleTime phases) ∧
  (Phase.duration <$> phases = [JS.Int 45; JS.Int 40; JS.Int 20] →
   getTotalCycleTime phases = JS.Int 105).
Proof.
  intros Hexact. split_and!.
  - by apply total_exact.
  - intros phases' Hperm.
    destruct (exact_durations_Permutation _ _ Hperm Hexact) as [Hexact' Hsum].
    by rewrite !total_exact, Hsum.
  - intros Hd. rewrite total_exact by done. unfold duration_sum.
    by rewrite list_fmap_compose, Hd.
Qed.

Lemma getTotalCycleTime_sum_witness :
  exact_durations mgRoadPhases ∧
  mgRoadPhases ≡ₚ rev mgRoadPhases ∧
  getTotalCycleTime (rev mgRoadPhases) = getTotalCycleTime mgRoadPhases ∧
  getTotalCycleTime mgRoadPhases = JS.Int 105.
Proof.
  assert (Hexact : exact_durations mgRoadPhases).
  { split; [repeat constructor; by eexists | by vm_compute]. }
  assert (Hperm : mgRoadPhases ≡ₚ rev mgRoadPhases) by apply Permutation_rev.
  pose proof (getTotalCycleTime_sum mgRoadPhases Hexact) as (_ & Hinv & Hex).
  split_and!; [exact Hexact | exact Hperm | exact (Hinv _ Hperm) | exact (Hex eq_refl)].
Defined.

(** Without the bound the total depends on the order: the first addition
    of 1 to [2 ^ 53] is rounded away, twice, while 1 + 1 is not. *)
Lemma getTotalCycleTime_order_counterexample :
  hugePhases ≡ₚ hugePhasesReordered ∧
  duration_sum hugePhases = 9007199254740994%Z ∧
  getTotalCycleTime hugePhases = JS.Int 9007199254740992 ∧
  getTotalCycleTime hugePhasesReordered = JS.Int 9007199254740994 ∧
  getTotalCycleTime hugePhases ≠ JS.Int (duration_sum hugePhases) ∧
  getTotalCycleTime hugePhases ≠ getTotalCycleTime hugePhasesReordered.
Proof.
  split_and!; [| by vm_compute | by vm_compute | by vm_compute
               | by vm_compute | by vm_compute].
  unfold hugePhases, hugePhasesReordered.
  etrans; [apply Permutation_swap|]. apply Permutation_skip, Permutation_swap.
Qed.

(** ** The edit handlers *)

Lemma setEditData_same st : setEditData (editData st) st = st.
Proof. by destruct st. Qed.

Lemma mapM_save_entry draft ints :
  mapM (save_entry (Some draft)) ints
  = JS.Ok (map (λ int, if String.eqb (Intersection.id int) (Intersection.id draft)
                       then draft else int) ints).
Proof.
  induction ints as [|int ints IH]; [done|].
  cbn [mapM] in *. rewrite IH. reflexivity.
Qed.

Lemma handleSave_draft st draft :
  editData st = Some draft →
  handleSave st
  = JS.Ok (setEditDialogOpen false
             (setIntersections
                (map (λ int, if String.eqb (Intersection.id int) (Intersection.id draft)
                             then draft else int) (intersections st))
                st)).
Proof.
  intros Hd. unfold handleSave. rewrite Hd, mapM_save_entry. reflexivity.
Qed.

Lemma map_unmatched {A} (f : A → bool) (g : A → A) (l : list A) :
  (∀ x, x ∈ l → f x = false) → map (λ x, if f x then g x else x) l = l.
Proof.
  induction l as [|x l IH]; intros Hf; [done|]. simpl.
  rewrite (Hf x) by left. f_equal. apply IH. intros y Hy. apply Hf. by right.
Qed.

Example indiranagar_mock : mockIntersections !! 1 = Some indiranagar.
Proof. reflexivity. Qed.

(** C3. With a draft open, [handleStatusChange] sets the draft's status to
    the new value and gives every phase a colour computed from the new
    status and the phase's own [active] flag: for status [active], green
    when the flag is true and red when it is false; for any other status
    (so for [inactive] and [maintenance]) yellow whatever the flag. The
    phases keep their order and their other fields, and the draft keeps its
    other fields. The handler returns a state whose draft is that
    intersection and whose other cells are those of the state it was
    given. *)
Theorem handleStatusChange_recolors (st : State) (prev : Intersection.t) (status : string) :
  editData st = Some prev →
  ∃ st' next,
    handleStatusChange status st = JS.Ok st' ∧
    editData st' = Some next ∧
    only_draft_differs st st' ∧
    Intersection.status next = status ∧
    length (Intersection.phases next) = length (Intersection.phases prev) ∧
    (∀ k phase, Intersection.phases prev !! k = Some phase →
       ∃ phase',
         Intersection.phases next !! k = Some phase' ∧
         (status = "active"%string → Phase.active phase = true →
          Phase.color phase' = "green"%string) ∧
         (status = "active"%string → Phase.active phase = false →
          Phase.color phase' = "red"%string) ∧
         (status ≠ "active"%string → Phase.color phase' = "yellow"%string) ∧
         (status = "inactive"%string ∨ status = "maintenance"%string →
          Phase.color phase' = "yellow"%string) ∧
         Phase.id phase' = Phase.id phase ∧
         Phase.name phase' = Phase.name phase ∧
         Phase.duration phase' = Phase.duration phase ∧
         Phase.active phase' = Phase.active phase) ∧
    Intersection.id next = Intersection.id prev ∧
    Intersection.name next = Intersection.name prev ∧
    Intersection.lastUpdated next = Intersection.lastUpdated prev ∧
    Intersection.vehicleCount next = Intersection.vehicleCount prev ∧
    Intersection.avgWaitTime next = Intersection.avgWaitTime prev.
Proof.
  intros Hd. unfold handleStatusChange. rewrite Hd. simpl.
  eexists _, _. split; [reflexivity|]. split; [reflexivity|].
  split; [done|]. simpl.
  split_and!; try done.
  - by rewrite length_map.
  - intros k phase Hk. eexists. split.
    { rewrite list_lookup_fmap, Hk. reflexivity. }
    simpl. split_and!; try done.
    + by intros -> ->.
    + by intros -> ->.
    + intros Hs%String.eqb_neq. by rewrite Hs.
    + by intros [-> | ->].
Qed.

Lemma handleStatusChange_recolors_witness :
  editData editingState = Some indiranagar ∧
  ∃ st',
    handleStatusChange "maintenance" editingState = JS.Ok st' ∧
    Intersection.status <$> editData st' = Some "maintenance"%string ∧
    intersections st' = mockIntersections.
Proof.
  assert (H : editData editingState = Some indiranagar) by reflexivity.
  split; [exact H|].
  destruct (handleStatusChange_recolors editingState indiranagar "maintenance" H)
    as (st' & next & Hst' & Hnext & (Hints & _) & Hstatus & _).
  exists st'. split; [exact Hst'|]. split.
  - by rewrite Hnext, <- Hstatus.
  - by rewrite Hints.
Defined.

Example handleStatusChange_active_colors :
  (λ st, Phase.color <$> (from_option Intersection.phases [] (editData st)))
    <$> handleStatusChange "active" editingState
  = JS.Ok ["green"; "red"]%string.
Proof. reflexivity. Qed.

Example handleStatusChange_maintenance_colors :
  (λ st, Phase.color <$> (from_option Intersection.phases [] (editData st)))
    <$> handleStatusChange "maintenance" editingState
  = JS.Ok ["yellow"; "yellow"]%string.
Proof. reflexivity. Qed.

Example handleStatusChange_no_draft :
  handleStatusChange "active" loadedState = JS.Throw JS.TypeError.
Proof. reflexivity. Qed.

(** C4. With a draft open, [handleSave] succeeds and stores a list of the
    same length in which, position by position, an entry whose [id] equals
    the draft's is replaced by the draft and any other entry is the entry
    that was there. That list is the committed list of the state it
    returns, in which the dialog is closed and the other cells, the draft
    among them, are as before. *)
Theorem handleSave_replaces_matching (st : State) (draft : Intersection.t) :
  editData st = Some draft →
  ∃ st',
    handleSave st = JS.Ok st' ∧
    length (intersections st') = length (intersections st) ∧
    (∀ k int, intersections st !! k = Some int →
       (Intersection.id int = Intersection.id draft →
        intersections st' !! k = Some draft) ∧
       (Intersection.id int ≠ Intersection.id draft →
        intersections st' !! k = Some int)) ∧
    editDialogOpen st' = false ∧
    editData st' = Some draft ∧
    loading st' = loading st ∧
    searchTerm st' = searchTerm st ∧
    selectedIntersection st' = selectedIntersection st ∧
    autoRefresh st' = autoRefresh st.
Proof.
  intros Hd. eexists. split; [by apply handleSave_draft|]. simpl.
  split; [by rewrite length_map|].
  split; [|by rewrite Hd].
  intros k int Hk. rewrite list_lookup_fmap, Hk. simpl. split.
  - intros ->%String.eqb_eq. reflexivity.
  - intros ->%String.eqb_neq. reflexivity.
Qed.

Lemma handleSave_replaces_matching_witness :
  editData editedState
  = Some (Intersection.mk "int-002" "Indiranagar 100ft Road" "active"
            "2023-06-15T10:32:15"
            [ Phase.mk "north-south" "North-South" 55 true "green";
              Phase.mk "east-west" "East-West" 50 false "red" ]
            89 30) ∧
  ∃ st',
    handleSave editedState = JS.Ok st' ∧
    length (intersections st') = 4 ∧
    Intersection.phases <$> intersections st' !! 1
    = Some [ Phase.mk "north-south" "North-South" 55 true "green";
             Phase.mk "east-west" "East-West" 50 false "red" ] ∧
    intersections st' !! 0 = Some mgRoad.
Proof.
  split; [reflexivity|].
  destruct (handleSave_replaces_matching editedState _ eq_refl)
    as (st' & Hsave & Hlen & Hrepl & _).
  exists st'. split; [exact Hsave|]. split; [exact Hlen|].
  destruct (Hrepl 1 indiranagar eq_refl) as [H1 _].
  destruct (Hrepl 0 mgRoad eq_refl) as [_ H0].
  split.
  - by rewrite (H1 eq_refl).
  - apply H0. discriminate.
Defined.

Example handleSave_mock :
  (λ st, Intersection.phases <$> intersections st) <$> handleSave editedState
  = JS.Ok
      [ mgRoadPhases;
        [ Phase.mk "north-south" "North-South" 55 true "green";
          Phase.mk "east-west" "East-West" 50 false "red" ];
        marathahalliPhases;
        [ Phase.mk "north-south" "North-South" 40 false "red";
          Phase.mk "east-west" "East-West" 40 true "green" ] ].
Proof. reflexivity. Qed.

Lemma assign_carries a phase : carries a (Phase.assign a phase).
Proof. by destruct a. Qed.

Lemma assign_agree_except a phase :
  agree_except (Phase.field_of a) phase (Phase.assign a phase).
Proof. destruct a; repeat split; done. Qed.

(** C6. With a draft open, [handlePhaseChange phaseId field value] rewrites
    the draft's phase sequence position by position: a phase whose [id]
    equals [phaseId] gets the named field set to the value and keeps its
    other fields; a phase with another [id] is left as it was. The draft's
    own [id], [name], [status], [lastUpdated], [vehicleCount] and
    [avgWaitTime] are unchanged. The handler returns a state whose draft
    is that intersection and whose other cells are those of the state it
    was given. *)
Theorem handlePhaseChange_frame
  (st : State) (prev : Intersection.t) (phaseId : string) (a : Phase.assignment) :
  editData st = Some prev →
  ∃ st' next,
    handlePhaseChange phaseId a st = JS.Ok st' ∧
    editData st' = Some next ∧
    only_draft_differs st st' ∧
    length (Intersection.phases next) = length (Intersection.phases prev) ∧
    (∀ k phase, Intersection.phases prev !! k = Some phase →
       (Phase.id phase = phaseId →
        ∃ phase', Intersection.phases next !! k = Some phase' ∧
                  carries a phase' ∧
                  agree_except (Phase.field_of a) phase phase') ∧
       (Phase.id phase ≠ phaseId → Intersection.phases next !! k = Some phase)) ∧
    Intersection.id next = Intersection.id prev ∧
    Intersection.name next = Intersection.name prev ∧
    Intersection.status next = Intersection.status prev ∧
    Intersection.lastUpdated next = Intersection.lastUpdated prev ∧
    Intersection.vehicleCount next = Intersection.vehicleCount prev ∧
    Intersection.avgWaitTime next = Intersection.avgWaitTime prev.
Proof.
  intros Hd. unfold handlePhaseChange. rewrite Hd. simpl.
  eexists _, _. split; [reflexivity|]. split; [reflexivity|].
  split; [done|]. simpl.
  split_and!; try done.
  - by rewrite length_map.
  - intros k phase Hk. rewrite list_lookup_fmap, Hk. simpl. split.
    + intros ->%String.eqb_eq. eexists. split; [reflexivity|].
      split; [apply assign_carries | apply assign_agree_except].
    + intros ->%String.eqb_neq. reflexivity.
Qed.

Lemma handlePhaseChange_frame_witness :
  editData editingState = Some indiranagar ∧
  ∃ st' next,
    handlePhaseChange "north-south" (Phase.SetDuration 55) editingState = JS.Ok st' ∧
    editData st' = Some next ∧
    Intersection.name next = "Indiranagar 100ft Road"%string ∧
    Phase.duration <$> Intersection.phases next !! 0 = Some (JS.Int 55) ∧
    Intersection.phases next !! 1
    = Some (Phase.mk "east-west" "East-West" 50 false "red").
Proof.
  split; [reflexivity|].
  destruct (handlePhaseChange_frame editingState indiranagar "north-south"
              (Phase.SetDuration 55) eq_refl)
    as (st' & next & Hst' & Hnext & _ & _ & Hphases & _ & Hname & _).
  exists st', next. split; [exact Hst'|]. split; [exact Hnext|].
  split; [exact Hname|].
  destruct (Hphases 0 (Phase.mk "north-south" "North-South" 60 true "green") eq_refl)
    as [Hedit _].
  destruct (Hphases 1 (Phase.mk "east-west" "East-West" 50 false "red") eq_refl)
    as [_ Hkeep].
  split.
  - destruct (Hedit eq_refl) as (phase' & -> & Hcarries & _). simpl.
    by rewrite Hcarries.
  - apply Hkeep. discriminate.
Defined.

Example handlePhaseChange_mock :
  (λ st, Phase.duration <$> (from_option Intersection.phases [] (editData st)))
    <$> handlePhaseChange "east-west" (Phase.SetDuration 35) editingState
  = JS.Ok [JS.Int 60; JS.Int 35].
Proof. reflexivity. Qed.

(** C7. With a draft open, an edit that names an unknown identifier does
    nothing and raises no error: a phase edit whose [phaseId] is the [id] of
    no phase of the draft returns the state it was given; a save whose draft
    [id] is the [id] of no committed entry returns a state with the same
    committed list and the same draft (the only cell it writes is the
    dialog flag, which it clears). *)
Theorem unmatched_id_is_noop (st : State) (draft : Intersection.t) :
  editData st = Some draft →
  (∀ phaseId a,
     (∀ phase, phase ∈ Intersection.phases draft → Phase.id phase ≠ phaseId) →
     handlePhaseChange phaseId a st = JS.Ok st) ∧
  ((∀ int, int ∈ intersections st → Intersection.id int ≠ Intersection.id draft) →
   ∃ st', handleSave st = JS.Ok st' ∧
          model_state st' = model_state st ∧
          st' = setEditDialogOpen false st).
Proof.
  intros Hd. split.
  - intros phaseId a Hno. unfold handlePhaseChange. rewrite Hd. simpl.
    rewrite (map_unmatched (λ phase, String.eqb (Phase.id phase) phaseId)).
    + do 2 f_equal. rewrite <- (setEditData_same st) at 2. rewrite Hd.
      by destruct draft.
    + intros phase Hin. by apply String.eqb_neq, Hno.
  - intros Hno. rewrite (handleSave_draft _ _ Hd).
    rewrite (map_unmatched
               (λ int, String.eqb (Intersection.id int) (Intersection.id draft))
               (λ _, draft)).
    + eexists. split; [reflexivity|]. by destruct st.
    + intros int Hin. by apply String.eqb_neq, Hno.
Qed.

Example handleSave_stray_draft :
  handleSave strayDraftState = JS.Ok (setEditDialogOpen false strayDraftState) ∧
  editDialogOpen strayDraftState = true.
Proof. split; reflexivity. Qed.

Example handleSave_no_draft : handleSave loadedState = JS.Throw JS.TypeError.
Proof. reflexivity. Qed.

Lemma unmatched_id_is_noop_witness :
  editData editingState = Some indiranagar ∧
  handlePhaseChange "pedestrian" (Phase.SetDuration 25) editingState
  = JS.Ok editingState ∧
  ∃ st', handleSave strayDraftState = JS.Ok st' ∧
         model_state st' = model_state strayDraftState.
Proof.
  split; [reflexivity|]. split.
  - apply (unmatched_id_is_noop editingState indiranagar eq_refl).
    intros phase Hin.
    repeat (apply elem_of_cons in Hin as [-> | Hin]; [discriminate|]).
    by apply elem_of_nil in Hin.
  - destruct (unmatched_id_is_noop strayDraftState _ eq_refl) as [_ Hsave].
    destruct Hsave as (st' & Hst' & Hints & _).
    + intros int Hin.
      unfold strayDraftState, handleEdit, loadedState, mockIntersections in Hin.
      simpl in Hin.
      repeat (apply elem_of_cons in Hin as [-> | Hin]; [discriminate|]).
      by apply elem_of_nil in Hin.
    + by exists st'.
Defined.

(** ** Case-insensitive search *)

Lemma N_of_ascii_inj c d : N_of_ascii c = N_of_ascii d → c = d.
Proof.
  intros H. rewrite <- (ascii_N_embedding c), <- (ascii_N_embedding d).
  by rewrite H.
Qed.

Lemma N_of_lower_unit c :
  N_of_ascii (JS.lower_unit c)
  = if JS.is_upper (N_of_ascii c) then (N_of_ascii c + 32)%N else N_of_ascii c.
Proof.
  unfold JS.lower_unit. cbv zeta.
  destruct (JS.is_upper (N_of_ascii c)) eqn:E; [|done].
  apply N_ascii_embedding. unfold JS.is_upper in E. lia.
Qed.

Lemma is_upper_lowered n : JS.is_upper n = true → JS.is_upper (n + 32) = false.
Proof. unfold JS.is_upper. lia. Qed.

(** The table of letters against the arithmetic of [JS.lower_unit]: it
    lists exactly the code units [JS.is_upper] accepts, each with the code
    unit 32 above it. *)
Lemma case_pairs_sound :
  Forall (λ p, JS.is_upper (N_of_ascii p.1) = true ∧
               N_of_ascii p.2 = (N_of_ascii p.1 + 32)%N) case_pairs.
Proof.
  assert (Hb : forallb (λ p, JS.is_upper (N_of_ascii p.1) &&
                             (N_of_ascii p.2 =? N_of_ascii p.1 + 32)%N)
                 case_pairs = true) by (vm_compute; reflexivity).
  rewrite forallb_forall in Hb.
  apply Forall_forall. intros p Hin%list_elem_of_In.
  apply Hb in Hin. apply andb_true_iff in Hin as [Hu Hl%N.eqb_eq]. done.
Qed.

Lemma case_pairs_complete u :
  JS.is_upper (N_of_ascii u) = true →
  (u, ascii_of_N (N_of_ascii u + 32)) ∈ case_pairs.
Proof.
  intros Hu.
  assert (Hb : (if JS.is_upper (N_of_ascii u)
                then bool_decide ((u, ascii_of_N (N_of_ascii u + 32)) ∈ case_pairs)
                else true) = true).
  { clear Hu. destruct u as [[] [] [] [] [] [] [] []]; vm_compute; reflexivity. }
  rewrite Hu in Hb. by apply bool_decide_eq_true in Hb.
Qed.

Lemma case_pair_arith u l :
  case_pair u l ↔
  JS.is_upper (N_of_ascii u) = true ∧ N_of_ascii l = (N_of_ascii u + 32)%N.
Proof.
  unfold case_pair. split.
  - intros Hin. pose proof case_pairs_sound as Hs.
    rewrite Forall_forall in Hs. apply (Hs (u, l) Hin).
  - intros [Hu Hl]. apply case_pairs_complete in Hu.
    replace l with (ascii_of_N (N_of_ascii u + 32)); [done|].
    rewrite <- Hl. apply ascii_N_embedding.
Qed.

Lemma lower_unit_same_letter c d :
  JS.lower_unit c = JS.lower_unit d ↔ same_letter c d.
Proof.
  unfold same_letter. rewrite !case_pair_arith. split.
  - intros H%(f_equal N_of_ascii). rewrite !N_of_lower_unit in H.
    destruct (JS.is_upper (N_of_ascii c)) eqn:Ec,
             (JS.is_upper (N_of_ascii d)) eqn:Ed.
    + left. apply N_of_ascii_inj. lia.
    + right; left. split; [done | lia].
    + right; right. split; [done | lia].
    + left. by apply N_of_ascii_inj.
  - intros H. apply N_of_ascii_inj. rewrite !N_of_lower_unit.
    destruct H as [-> | [[Hc Hd] | [Hd Hc]]]; [done | |].
    + by rewrite Hc, Hd, (is_upper_lowered _ Hc).
    + by rewrite Hd, Hc, (is_upper_lowered _ Hd).
Qed.

Lemma append_String c s t : String c s +:+ t = String c (s +:+ t).
Proof. reflexivity. Qed.

Lemma toLowerCase_append s t :
  JS.toLowerCase (s +:+ t) = JS.toLowerCase s +:+ JS.toLowerCase t.
Proof.
  induction s as [|c s IH]; [done|].
  rewrite append_String. simpl. by rewrite IH.
Qed.

Lemma toLowerCase_eq s t :
  JS.toLowerCase s = JS.toLowerCase t ↔ eq_ignoring_case s t.
Proof.
  split.
  - revert t. induction s as [|c s IH]; intros [|d t] H; simplify_eq/=.
    + constructor.
    + constructor; [by apply lower_unit_same_letter | by apply IH].
  - induction 1 as [|c d s t Hcd _ IH]; simpl; [done|].
    apply lower_unit_same_letter in Hcd. by rewrite Hcd, IH.
Qed.

Lemma toLowerCase_split s a b :
  JS.toLowerCase s = a +:+ b →
  ∃ s1 s2, s = s1 +:+ s2 ∧ JS.toLowerCase s1 = a ∧ JS.toLowerCase s2 = b.
Proof.
  revert s. induction a as [|c a IH]; intros s H.
  - by exists ""%string, s.
  - rewrite append_String in H. destruct s as [|d s]; simplify_eq/=.
    destruct (IH s) as (s1 & s2 & -> & <- & <-); [done|].
    by exists (String d s1), s2.
Qed.

Lemma prefix_append t s :
  String.prefix t s = true ↔ ∃ post, s = t +:+ post.
Proof.
  revert s. induction t as [|c t IH]; intros s.
  - destruct s; (split; [intros _; by eexists | done]).
  - destruct s as [|d s]; simpl.
    + split; [done | by intros [post ?]].
    + destruct (ascii_dec c d) as [->|Hne].
      * rewrite IH. split; intros [post H]; exists post.
        -- by rewrite append_String, H.
        -- rewrite append_String in H. by simplify_eq.
      * split; [done|]. intros [post H].
        rewrite append_String in H. by simplify_eq.
Qed.

Lemma includes_append s t :
  JS.includes s t = true ↔ ∃ pre post, s = pre +:+ t +:+ post.
Proof.
  induction s as [|c s IH].
  - change (JS.includes "" t) with (String.prefix t "" || false).
    rewrite orb_false_r, prefix_append. split.
    + intros [post H]. by exists ""%string, post.
    + intros (pre & post & H). destruct pre; [by exists post | done].
  - change (JS.includes (String c s) t)
      with (String.prefix t (String c s) || JS.includes s t).
    rewrite orb_true_iff, prefix_append, IH. split.
    + intros [[post H] | (pre & post & H)].
      * by exists ""%string, post.
      * exists (String c pre), post. by rewrite H.
    + intros (pre & post & H). destruct pre as [|d pre].
      * left. by exists post.
      * right. exists pre, post. rewrite append_String in H. by simplify_eq.
Qed.

(** The test the filter runs is the spec's condition. *)
Lemma includes_toLowerCase s t :
  JS.includes (JS.toLowerCase s) (JS.toLowerCase t) = true
  ↔ contains_ignoring_case s t.
Proof.
  rewrite includes_append. unfold contains_ignoring_case. split.
  - intros (pre' & post' & H).
    apply toLowerCase_split in H as (pre & rest & -> & <- & H).
    apply toLowerCase_split in H as (mid & post & -> & H & <-).
    exists pre, mid, post. split; [done | by apply toLowerCase_eq].
  - intros (pre & mid & post & -> & H%toLowerCase_eq).
    exists (JS.toLowerCase pre), (JS.toLowerCase post).
    by rewrite !toLowerCase_append, H.
Qed.

Lemma filter_decide {A} (f : A → bool) (P : A → Prop) `{∀ x, Decision (P x)} l :
  (∀ x, f x = true ↔ P x) → List.filter f l = filter P l.
Proof.
  intros Hf. induction l as [|x l IH]; [done|].
  simpl. rewrite filter_cons, IH.
  destruct (decide (P x)) as [HP|HP].
  - apply Hf in HP. by rewrite HP.
  - destruct (f x) eqn:E; [|done]. by apply Hf in E.
Qed.

Lemma filter_test_matches (term : string) (intersection : Intersection.t) :
  JS.includes (JS.toLowerCase (Intersection.name intersection)) (JS.toLowerCase term) ||
  JS.includes (JS.toLowerCase (Intersection.id intersection)) (JS.toLowerCase term)
  = true
  ↔ matches_search term intersection.
Proof.
  unfold matches_search. by rewrite orb_true_iff, !includes_toLowerCase.
Qed.

Lemma filter_sublist {A} (f : A → bool) l : List.filter f l `sublist_of` l.
Proof.
  induction l as [|x l IH]; simpl; [done|].
  destruct (f x); by constructor.
Qed.

Example mgRoad_mock : mockIntersections !! 0 = Some mgRoad.
Proof. reflexivity. Qed.

Example filteredIntersections_mock :
  filteredIntersections (handleSearch "indira" loadedState) = [indiranagar].
Proof. reflexivity. Qed.

Example filteredIntersections_by_id :
  Intersection.id <$> filteredIntersections (handleSearch "INT-003" loadedState)
  = ["int-003"].
Proof. reflexivity. Qed.

Example filteredIntersections_empty_term :
  filteredIntersections loadedState = mockIntersections.
Proof. reflexivity. Qed.

(** C8. [filteredIntersections] keeps exactly the intersections whose
    [name] or [id] contains the search string, case ignored: it is the
    committed list filtered by that condition, so an intersection is in the
    result just when it is in the list and meets the condition, and the
    kept entries stay in list order. In particular, with the search string
    "indira" and a list of two intersections named "MG Road & Brigade Road"
    and "Indiranagar 100ft Road" (the first with an [id] that does not
    contain the string either), the result is exactly the second one. *)
Theorem filteredIntersections_matches (st : State) :
  (∀ dec : ∀ int, Decision (matches_search (searchTerm st) int),
     filteredIntersections st
     = filter (matches_search (searchTerm st)) (intersections st)) ∧
  (∀ int, int ∈ filteredIntersections st ↔
          int ∈ intersections st ∧ matches_search (searchTerm st) int) ∧
  filteredIntersections st `sublist_of` intersections st ∧
  (∀ a b,
     intersections st = [a; b] →
     searchTerm st = "indira" →
     Intersection.name a = "MG Road & Brigade Road" →
     Intersection.name b = "Indiranagar 100ft Road" →
     ¬ contains_ignoring_case (Intersection.id a) "indira" →
     filteredIntersections st = [b]).
Proof.
  split_and!.
  - intros dec. unfold filteredIntersections.
    apply filter_decide. intros int. apply filter_test_matches.
  - intros int. unfold filteredIntersections.
    rewrite !list_elem_of_In, filter_In. by rewrite filter_test_matches.
  - apply filter_sublist.
  - intros a b Hl Ht Ha Hb Hid.
    unfold filteredIntersections. rewrite Hl, Ht. cbn [List.filter].
    rewrite Ha, Hb.
    destruct (JS.includes (JS.toLowerCase (Intersection.id a)) _) eqn:E.
    + destruct Hid. by apply includes_toLowerCase.
    + reflexivity.
Qed.

(** Two letters are the same up to case, read off the table. *)
Ltac same_letter_by_table :=
  unfold same_letter, case_pair;
  first [ left; reflexivity
        | right; left; apply (bool_decide_unpack _); vm_compute; exact I
        | right; right; apply (bool_decide_unpack _); vm_compute; exact I ].

Ltac eq_ignoring_case_by_table :=
  repeat first [ apply eic_empty | apply eic_letter; [same_letter_by_table|] ].

Lemma filteredIntersections_matches_witness :
  ¬ contains_ignoring_case (Intersection.id mgRoad) "indira" ∧
  filteredIntersections
    (setIntersections [mgRoad; indiranagar] (handleSearch "indira" loadedState))
  = [indiranagar] ∧
  matches_search "100FT ROAD" indiranagar ∧
  indiranagar ∈ filteredIntersections (handleSearch "100FT ROAD" loadedState).
Proof.
  assert (Hid : ¬ contains_ignoring_case (Intersection.id mgRoad) "indira").
  { intros H%includes_toLowerCase. discriminate H. }
  assert (Hm : matches_search "100FT ROAD" indiranagar).
  { left. exists "Indiranagar "%string, "100ft Road"%string, ""%string.
    split; [reflexivity | eq_ignoring_case_by_table]. }
  split; [exact Hid|]. split; [|split; [exact Hm|]].
  - destruct (filteredIntersections_matches
                (setIntersections [mgRoad; indiranagar]
                   (handleSearch "indira" loadedState)))
      as (_ & _ & _ & Hex).
    exact (Hex mgRoad indiranagar eq_refl eq_refl eq_refl eq_refl Hid).
  - destruct (filteredIntersections_matches (handleSearch "100FT ROAD" loadedState))
      as (_ & Hiff & _).
    apply Hiff. split; [|exact Hm].
    apply list_elem_of_lookup. by exists 1.
Defined.

(** * Further properties of the Traffic Lights page *)

(** ** The derivations on any sequence *)

Lemma getActivePhase_cases phases :
  (∃ i p, first_at Phase.active phases i p ∧ getActivePhase phases = Some p ∧
          getNextPhase phases = phases !! ((i + 1) `mod` length phases)) ∨
  (nowhere Phase.active phases ∧ getActivePhase phases = phases !! 0 ∧
   getNextPhase phases = phases !! 0).
Proof.
  destruct (first_at_or_nowhere Phase.active phases) as [(i & p & H)|H].
  - left. exists i, p. split_and!; [done|..].
    + by eapply getActivePhase_first_at.
    + by eapply getNextPhase_first_at.
  - right. split_and!; [done|..].
    + by apply getActivePhase_nowhere.
    + by apply getNextPhase_nowhere.
Qed.

Lemma derivations_None phases :
  (getActivePhase phases = None ↔ phases = []) ∧
  (getNextPhase phases = None ↔ phases = []).
Proof.
  destruct phases as [|p0 phases]; [by split|].
  destruct (getActivePhase_cases (p0 :: phases))
    as [(i & p & Hp & -> & ->)|(Hn & -> & ->)]; [|by split].
  destruct (at_index_rem_is_Some (p0 :: phases) (i + 1)) as [q ->]; [done|].
  by split.
Qed.

(** The total depends on the phases through their durations only. *)
Lemma total_of_durations phases :
  getTotalCycleTime phases
  = fold_left JS.add (Phase.duration <$> phases) (JS.Int 0).
Proof.
  unfold getTotalCycleTime, JS.reduce. generalize (JS.Int 0).
  induction phases as [|p phases IH]; intros init; [done|].
  rewrite fmap_cons. cbn [fold_left]. apply IH.
Qed.

Lemma handlePhaseChange_draft st prev phaseId a :
  editData st = Some prev →
  ∃ next,
    handlePhaseChange phaseId a st = JS.Ok (setEditData (Some next) st) ∧
    Intersection.id next = Intersection.id prev ∧
    length (Intersection.phases next) = length (Intersection.phases prev).
Proof.
  intros Hd. unfold handlePhaseChange. rewrite Hd. simpl.
  eexists. split; [reflexivity|]. simpl. by rewrite length_map.
Qed.

Lemma handleStatusChange_draft st prev status :
  editData st = Some prev →
  ∃ next,
    handleStatusChange status st = JS.Ok (setEditData (Some next) st) ∧
    Intersection.id next = Intersection.id prev ∧
    length (Intersection.phases next) = length (Intersection.phases prev).
Proof.
  intros Hd. unfold handleStatusChange. rewrite Hd. simpl.
  eexists. split; [reflexivity|]. simpl. by rewrite length_map.
Qed.

Lemma filteredIntersections_elem st int :
  int ∈ filteredIntersections st → int ∈ intersections st.
Proof.
  unfold filteredIntersections. rewrite !list_elem_of_In, filter_In. tauto.
Qed.

(** X1. Each derivation returns [undefined] on the empty sequence and only
    there, and what it returns otherwise is one of the phases it was
    given. *)
Theorem derivations_defined (phases : list Phase.t) :
  (getActivePhase phases = None ↔ phases = []) ∧
  (getNextPhase phases = None ↔ phases = []) ∧
  (∀ p, getActivePhase phases = Some p → p ∈ phases) ∧
  (∀ p, getNextPhase phases = Some p → p ∈ phases).
Proof.
  destruct phases as [|p0 phases]; [by repeat split|].
  assert (Hne : p0 :: phases ≠ []) by done.
  destruct (getActivePhase_cases (p0 :: phases))
    as [(i & p & Hp & -> & ->)|(Hn & -> & ->)].
  - destruct (at_index_rem_is_Some (p0 :: phases) (i + 1) Hne) as [q Hq].
    rewrite Hq. destruct Hp as (Hi & _).
    split_and!; [done | done | |]; intros ? [= <-];
      by eapply list_elem_of_lookup_2.
  - simpl. split_and!; [done | done | |]; intros ? [= <-]; by left.
Qed.

(** X2. When no phase is flagged active, or the sequence has one phase, the
    card's "current" and "next" phases are the same phase. Among pairwise
    distinct phases these are the only cases in which they coincide. *)
Theorem next_is_current_cases (phases : list Phase.t) :
  phases ≠ [] →
  (nowhere Phase.active phases ∨ length phases = 1 →
   getNextPhase phases = getActivePhase phases) ∧
  (NoDup phases → getNextPhase phases = getActivePhase phases →
   nowhere Phase.active phases ∨ length phases = 1).
Proof.
  intros Hne.
  destruct (getActivePhase_cases phases)
    as [(i & p & Hp & -> & ->)|(Hn & -> & ->)].
  - pose proof Hp as (Hi & _). pose proof (lookup_lt_Some _ _ _ Hi) as Hlt.
    split.
    + intros [Hn | Hlen].
      * apply list_find_first_at in Hp. apply list_find_nowhere in Hn.
        congruence.
      * assert (i = 0) as -> by lia. rewrite Hlen. exact Hi.
    + intros Hnd Heq. right. rewrite <- Hi in Heq.
      apply NoDup_lookup with (i := (i + 1) `mod` length phases) (j := i) (x := p)
        in Hnd; [| by rewrite Heq | done].
      destruct (decide (i + 1 = length phases)) as [Hlast|Hmid].
      * rewrite Hlast, Nat.Div0.mod_same in Hnd. lia.
      * rewrite Nat.mod_small in Hnd by lia. lia.
  - split; [done | by left].
Qed.

Lemma next_is_current_cases_witness :
  marathahalliPhases ≠ [] ∧
  nowhere Phase.active marathahalliPhases ∧
  getNextPhase marathahalliPhases = getActivePhase marathahalliPhases.
Proof.
  assert (Hne : marathahalliPhases ≠ []) by discriminate.
  assert (Hn : nowhere Phase.active marathahalliPhases) by (repeat constructor).
  split_and!; [exact Hne | exact Hn |].
  apply (next_is_current_cases marathahalliPhases Hne). by left.
Defined.

(** A rewriting of the phases that keeps every [active] flag moves neither
    derivation to another position. *)
Lemma derivations_fmap (g : Phase.t → Phase.t) phases :
  (∀ p, Phase.active (g p) = Phase.active p) →
  getActivePhase (g <$> phases) = g <$> getActivePhase phases ∧
  getNextPhase (g <$> phases) = g <$> getNextPhase phases.
Proof.
  intros Hg.
  destruct (getActivePhase_cases phases)
    as [(i & p & Hp & -> & ->)|(Hn & -> & ->)].
  - assert (first_at Phase.active (g <$> phases) i (g p)) as Hp'.
    { destruct Hp as (Hi & Ha & Hlt). split_and!.
      - by rewrite list_lookup_fmap, Hi.
      - by rewrite Hg.
      - intros j y Hj Hy. rewrite list_lookup_fmap in Hy.
        destruct (phases !! j) as [q|] eqn:Hq; simplify_eq/=.
        rewrite Hg. eauto. }
    rewrite (getActivePhase_first_at _ _ _ Hp').
    rewrite (getNextPhase_first_at _ _ _ Hp').
    by rewrite length_fmap, list_lookup_fmap.
  - assert (nowhere Phase.active (g <$> phases)) as Hn'.
    { unfold nowhere in *. rewrite Forall_fmap.
      eapply Forall_impl; [done|]. intros q Hq. simpl. by rewrite Hg. }
    rewrite (getActivePhase_nowhere _ Hn'), (getNextPhase_nowhere _ Hn').
    by rewrite list_lookup_fmap.
Qed.

(** ** Status changes *)


(** X4. A status change keeps the total cycle time of the draft, and the
    current and next phases stay the same phases, up to their colour. *)
Theorem handleStatusChange_keeps_cycle
  (st : State) (prev : Intersection.t) (status : string) :
  editData st = Some prev →
  ∃ next,
    handleStatusChange status st = JS.Ok (setEditData (Some next) st) ∧
    getTotalCycleTime (Intersection.phases next)
    = getTotalCycleTime (Intersection.phases prev) ∧
    (∀ p, getActivePhase (Intersection.phases prev) = Some p →
          ∃ c, getActivePhase (Intersection.phases next)
               = Some (Phase.assign (Phase.SetColor c) p)) ∧
    (∀ p, getNextPhase (Intersection.phases prev) = Some p →
          ∃ c, getNextPhase (Intersection.phases next)
               = Some (Phase.assign (Phase.SetColor c) p)).
Proof.
  intros Hd. unfold handleStatusChange. rewrite Hd. simpl.
  eexists. split; [reflexivity|]. simpl.
  set (g := λ phase, Phase.mk _ _ _ _ _).
  destruct (derivations_fmap g (Intersection.phases prev)) as [Ha Hn]; [done|].
  split_and!.
  - change (map g (Intersection.phases prev)) with (g <$> Intersection.phases prev).
    rewrite !total_of_durations. by rewrite <- list_fmap_compose.
  - intros p Hp. change (map g (Intersection.phases prev)) with (g <$> Intersection.phases prev). rewrite Ha, Hp. by eexists.
  - intros p Hp. change (map g (Intersection.phases prev)) with (g <$> Intersection.phases prev). rewrite Hn, Hp. by eexists.
Qed.

Lemma handleStatusChange_keeps_cycle_witness :
  editData editingState = Some indiranagar ∧
  ∃ next,
    handleStatusChange "maintenance" editingState
    = JS.Ok (setEditData (Some next) editingState) ∧
    getTotalCycleTime (Intersection.phases next) = JS.Int 110.
Proof.
  split; [reflexivity|].
  destruct (handleStatusChange_keeps_cycle editingState indiranagar "maintenance"
              eq_refl) as (next & Hnext & Htotal & _).
  exists next. split; [exact Hnext|]. by rewrite Htotal.
Defined.

(** ** Phase edits *)

Lemma duration_edit_exact phaseId (v : Z) phases :
  Forall (λ phase, ∃ z, Phase.duration phase = JS.Int z) phases →
  let edited :=
    map (λ phase, if String.eqb (Phase.id phase) phaseId
                  then Phase.assign (Phase.SetDuration (JS.Int v)) phase else phase)
      phases in
  let matching := List.filter (λ phase, String.eqb (Phase.id phase) phaseId) phases in
  Forall (λ phase, ∃ z, Phase.duration phase = JS.Int z) edited ∧
  (sum_Z ((Z.abs ∘ int_of ∘ Phase.duration) <$> edited)
   ≤ sum_Z ((Z.abs ∘ int_of ∘ Phase.duration) <$> phases)
     + Z.of_nat (length matching) * Z.abs v)%Z ∧
  duration_sum edited
  = (duration_sum phases
     + sum_Z ((λ phase, v - int_of (Phase.duration phase)) <$> matching))%Z.
Proof.
  cbv zeta. unfold duration_sum.
  induction 1 as [|p phases [z Hz] Hint (IH1 & IH2 & IH3)]; [done|].
  cbn [map List.filter]. rewrite !fmap_cons. cbn [sum_Z compose].
  destruct (String.eqb (Phase.id p) phaseId).
  - rewrite fmap_cons. cbn [sum_Z length].
    change (Phase.duration (Phase.assign (Phase.SetDuration (JS.Int v)) p))
      with (JS.Int v).
    cbn [int_of].
    split_and!; [constructor; [by eexists | done] | lia | lia].
  - split_and!; [constructor; [by eexists | done] | lia | lia].
Qed.

(** X5. Setting a duration to an integer changes the draft's total cycle
    time by the difference between the new and the old value, summed over
    the phases with the given [id]; with one such phase the new total is
    the old one minus that phase's old duration plus the new value. This
    holds while the additions are exact: the old durations are integers,
    and the sum of their absolute values, plus the absolute value of the
    new one for each phase edited, is at most [2 ^ 53]. The handler itself
    checks no range: zero and negative values are stored like any other. *)
Theorem handlePhaseChange_duration_total
  (st : State) (prev : Intersection.t) (phaseId : string) (v : Z) :
  editData st = Some prev →
  Forall (λ phase, ∃ z, Phase.duration phase = JS.Int z) (Intersection.phases prev) →
  (sum_Z ((Z.abs ∘ int_of ∘ Phase.duration) <$> Intersection.phases prev)
   + Z.of_nat (length (List.filter (λ phase, String.eqb (Phase.id phase) phaseId)
                         (Intersection.phases prev))) * Z.abs v
   ≤ 2 ^ 53)%Z →
  ∃ st' next,
    handlePhaseChange phaseId (Phase.SetDuration (JS.Int v)) st = JS.Ok st' ∧
    editData st' = Some next ∧
    getTotalCycleTime (Intersection.phases prev)
    = JS.Int (duration_sum (Intersection.phases prev)) ∧
    getTotalCycleTime (Intersection.phases next)
    = JS.Int (duration_sum (Intersection.phases prev)
              + sum_Z ((λ phase, (v - int_of (Phase.duration phase))%Z)
                         <$> List.filter (λ phase, String.eqb (Phase.id phase) phaseId)
                               (Intersection.phases prev))) ∧
    (∀ p, List.filter (λ phase, String.eqb (Phase.id phase) phaseId)
            (Intersection.phases prev) = [p] →
          getTotalCycleTime (Intersection.phases next)
          = JS.Int (duration_sum (Intersection.phases prev)
                    - int_of (Phase.duration p) + v)).
Proof.
  intros Hd Hint Hbound. unfold handlePhaseChange. rewrite Hd.
  eexists _, _. split; [reflexivity|]. split; [reflexivity|].
  cbn [Intersection.phases].
  destruct (duration_edit_exact phaseId v _ Hint) as (Hint' & Hbound' & Hsum).
  assert (0 ≤ Z.of_nat (length (List.filter
            (λ phase, String.eqb (Phase.id phase) phaseId)
            (Intersection.phases prev))) * Z.abs v)%Z by lia.
  rewrite (total_exact (Intersection.phases prev)) by (split; [done | lia]).
  rewrite total_exact by (split; [done | lia]).
  rewrite Hsum. split_and!; [done | done |].
  intros p ->. simpl. f_equal. lia.
Qed.

Lemma handlePhaseChange_duration_total_witness :
  editData editingState = Some indiranagar ∧
  ∃ st' next,
    handlePhaseChange "east-west" (Phase.SetDuration (JS.Int (-5))) editingState
    = JS.Ok st' ∧
    editData st' = Some next ∧
    getTotalCycleTime (Intersection.phases indiranagar) = JS.Int 110 ∧
    getTotalCycleTime (Intersection.phases next) = JS.Int 55.
Proof.
  split; [reflexivity|].
  assert (Hint : Forall (λ phase, ∃ z, Phase.duration phase = JS.Int z)
                   (Intersection.phases indiranagar))
    by (repeat constructor; by eexists).
  destruct (handlePhaseChange_duration_total editingState indiranagar "east-west"
              (-5) eq_refl Hint) as (st' & next & Hst' & Hnext & Hold & _ & Hone).
  { by vm_compute. }
  exists st', next. split; [exact Hst'|]. split; [exact Hnext|].
  split; [exact Hold|].
  by rewrite (Hone (Phase.mk "east-west" "East-West" 50 false "red") eq_refl).
Defined.

(** X6. An edit of any field other than [active] leaves the current and the
    next phase at their positions: each is the former one, edited if its
    [id] is the one named. *)
Theorem handlePhaseChange_keeps_positions
  (st : State) (prev : Intersection.t) (phaseId : string) (a : Phase.assignment) :
  editData st = Some prev →
  Phase.field_of a ≠ Phase.Active →
  ∃ st' next,
    handlePhaseChange phaseId a st = JS.Ok st' ∧
    editData st' = Some next ∧
    (∀ p, getActivePhase (Intersection.phases prev) = Some p →
          getActivePhase (Intersection.phases next)
          = Some (if String.eqb (Phase.id p) phaseId then Phase.assign a p else p)) ∧
    (∀ p, getNextPhase (Intersection.phases prev) = Some p →
          getNextPhase (Intersection.phases next)
          = Some (if String.eqb (Phase.id p) phaseId then Phase.assign a p else p)).
Proof.
  intros Hd Ha. unfold handlePhaseChange. rewrite Hd. simpl.
  eexists _, _. split; [reflexivity|]. split; [reflexivity|]. simpl.
  set (g := λ phase, if String.eqb _ _ then _ else _).
  destruct (derivations_fmap g (Intersection.phases prev)) as [Hact Hnext].
  { intros p. unfold g. destruct (String.eqb _ _); [|done]. by destruct a. }
  split.
  - intros p Hp. change (map g (Intersection.phases prev)) with (g <$> Intersection.phases prev). by rewrite Hact, Hp.
  - intros p Hp. change (map g (Intersection.phases prev)) with (g <$> Intersection.phases prev). by rewrite Hnext, Hp.
Qed.

Lemma handlePhaseChange_keeps_positions_witness :
  editData editingState = Some indiranagar ∧
  Phase.field_of (Phase.SetDuration 55) ≠ Phase.Active ∧
  ∃ st' next,
    handlePhaseChange "north-south" (Phase.SetDuration 55) editingState = JS.Ok st' ∧
    editData st' = Some next ∧
    getActivePhase (Intersection.phases next)
    = Some (Phase.mk "north-south" "North-South" 55 true "green").
Proof.
  assert (Hf : Phase.field_of (Phase.SetDuration 55) ≠ Phase.Active) by discriminate.
  split; [reflexivity|]. split; [exact Hf|].
  destruct (handlePhaseChange_keeps_positions editingState indiranagar "north-south"
              (Phase.SetDuration 55) eq_refl Hf) as (st' & next & Hst' & Hnext & Hact & _).
  exists st', next. split; [exact Hst'|]. split; [exact Hnext|].
  by rewrite (Hact (Phase.mk "north-south" "North-South" 60 true "green") eq_refl).
Defined.

Example handlePhaseChange_active_moves :
  (λ st, Phase.id <$> getActivePhase
                        (from_option Intersection.phases [] (editData st)))
    <$> handlePhaseChange "north-south" (Phase.SetActive false) editingState
  = JS.Ok (Some "north-south") ∧
  (λ st, Phase.id <$> getNextPhase
                        (from_option Intersection.phases [] (editData st)))
    <$> handlePhaseChange "north-south" (Phase.SetActive false) editingState
  = JS.Ok (Some "north-south").
Proof. split; reflexivity. Qed.

(** ** The edit dialog, from opening to saving *)

Lemma handleSave_saved_entry st draft :
  editData st = Some draft →
  handleSave st
  = JS.Ok (setEditDialogOpen false
             (setIntersections (saved_entry draft <$> intersections st) st)).
Proof. apply handleSave_draft. Qed.

Lemma dialog_step_draft st draft e :
  editData st = Some draft →
  ∃ draft',
    dialog_step st e = JS.Ok (setEditData (Some draft') st) ∧
    Intersection.id draft' = Intersection.id draft ∧
    length (Intersection.phases draft') = length (Intersection.phases draft).
Proof.
  intros Hd. destruct e as [phaseId a | status]; simpl.
  - destruct (handlePhaseChange_draft st draft phaseId a Hd)
      as (draft' & -> & Hid & Hlen). eauto.
  - destruct (handleStatusChange_draft st draft status Hd)
      as (draft' & -> & Hid & Hlen). eauto.
Qed.

Lemma setEditData_setEditData v w st :
  setEditData v (setEditData w st) = setEditData v st.
Proof. reflexivity. Qed.

Lemma dialog_run_draft es st draft :
  editData st = Some draft →
  ∃ draft',
    dialog_run es st = JS.Ok (setEditData (Some draft') st) ∧
    Intersection.id draft' = Intersection.id draft ∧
    length (Intersection.phases draft') = length (Intersection.phases draft).
Proof.
  revert st draft. induction es as [|e es IH]; intros st draft Hd.
  - exists draft. rewrite <- Hd, setEditData_same. done.
  - destruct (dialog_step_draft st draft e Hd) as (d1 & Hstep & Hid1 & Hlen1).
    destruct (IH (setEditData (Some d1) st) d1 eq_refl) as (d2 & Hrun & Hid2 & Hlen2).
    exists d2. cbn [dialog_run]. rewrite Hstep. simpl.
    rewrite Hrun, setEditData_setEditData. split_and!; congruence.
Qed.

(** X7. Opening the dialog on an intersection, making any run of phase and
    status edits and saving never throws. Until the save the committed list
    is untouched; the draft keeps the [id] and the number of phases of the
    intersection it was opened on; and the save stores the draft in place
    of every entry with that [id], leaves the other entries alone and
    closes the dialog. *)
Theorem dialog_workflow (st : State) (int : Intersection.t) (es : list dialog_input) :
  ∃ draft st',
    dialog_run es (handleEdit int st) = JS.Ok (setEditData (Some draft) (handleEdit int st)) ∧
    intersections (setEditData (Some draft) (handleEdit int st)) = intersections st ∧
    Intersection.id draft = Intersection.id int ∧
    length (Intersection.phases draft) = length (Intersection.phases int) ∧
    handleSave (setEditData (Some draft) (handleEdit int st)) = JS.Ok st' ∧
    editDialogOpen st' = false ∧
    length (intersections st') = length (intersections st) ∧
    ∀ k entry, intersections st !! k = Some entry →
      intersections st' !! k
      = Some (if String.eqb (Intersection.id entry) (Intersection.id int)
              then draft else entry).
Proof.
  destruct (dialog_run_draft es (handleEdit int st) int eq_refl)
    as (draft & Hrun & Hid & Hlen).
  exists draft. eexists. split_and!; [done | done | done | done | | | |].
  - by apply handleSave_saved_entry.
  - done.
  - simpl. by rewrite length_fmap.
  - intros k entry Hk. simpl. rewrite list_lookup_fmap, Hk. simpl.
    unfold saved_entry. by rewrite Hid.
Qed.

Example dialog_workflow_mock :
  (λ st, getTotalCycleTime <$> (Intersection.phases <$> intersections st))
    <$> (dialog_run [ PhaseChange "north-south" (Phase.SetDuration 55);
                      StatusChange "maintenance";
                      PhaseChange "east-west" (Phase.SetDuration 35) ]
           editingState ≫= handleSave)
  = JS.Ok (JS.Int <$> [105; 90; 60; 80]%Z).
Proof. reflexivity. Qed.

Lemma fmap_inj_on_NoDup {A B} (f : A → B) (l : list A) x y :
  NoDup (f <$> l) → x ∈ l → y ∈ l → f x = f y → x = y.
Proof.
  intros Hnd [i Hi]%list_elem_of_lookup [j Hj]%list_elem_of_lookup Hf.
  assert (i = j) as ->; [|congruence].
  eapply (NoDup_lookup _ i j (f x) Hnd); rewrite list_lookup_fmap.
  - by rewrite Hi.
  - by rewrite Hj, Hf.
Qed.

(** X8. When the committed intersections have pairwise different [id]s,
    opening the dialog on one of them and saving at once leaves the
    committed list as it was. *)
Theorem open_then_save_keeps_list (st : State) (int : Intersection.t) :
  NoDup (Intersection.id <$> intersections st) →
  int ∈ intersections st →
  ∃ st', handleSave (handleEdit int st) = JS.Ok st' ∧
         intersections st' = intersections st.
Proof.
  intros Hnd Hin. rewrite (handleSave_saved_entry (handleEdit int st) int eq_refl).
  eexists. split; [reflexivity|]. simpl.
  rewrite <- (list_fmap_id (intersections st)) at 2.
  apply list_fmap_ext. intros k entry Hk. unfold saved_entry. simpl.
  destruct (String.eqb_spec (Intersection.id entry) (Intersection.id int)) as [Heq|]; [|done].
  symmetry. eapply fmap_inj_on_NoDup; [done | | done | done].
  by eapply list_elem_of_lookup_2.
Qed.

Lemma open_then_save_keeps_list_witness :
  NoDup (Intersection.id <$> intersections loadedState) ∧
  indiranagar ∈ intersections loadedState ∧
  ∃ st', handleSave (handleEdit indiranagar loadedState) = JS.Ok st' ∧
         intersections st' = mockIntersections.
Proof.
  assert (Hnd : NoDup (Intersection.id <$> intersections loadedState)).
  { apply (bool_decide_unpack _). vm_compute. exact I. }
  assert (Hin : indiranagar ∈ intersections loadedState).
  { apply list_elem_of_lookup. by exists 1. }
  split_and!; [exact Hnd | exact Hin |].
  exact (open_then_save_keeps_list loadedState indiranagar Hnd Hin).
Defined.

(** Two committed entries with one [id]: saving a draft of the first
    overwrites the second as well. *)
Example open_then_save_duplicate_id :
  (λ st, Intersection.name <$> intersections st)
    <$> handleSave
          (handleEdit mgRoad
             (setIntersections
                [ mgRoad;
                  Intersection.mk "int-001" "Hebbal Flyover" "inactive"
                    "2023-06-15T11:00:00" marathahalliPhases 0 0 ]
                loadedState))
  = JS.Ok ["MG Road & Brigade Road"; "MG Road & Brigade Road"].
Proof. reflexivity. Qed.

Lemma saved_entry_idemp draft int :
  saved_entry draft (saved_entry draft int) = saved_entry draft int.
Proof.
  unfold saved_entry.
  destruct (String.eqb (Intersection.id int) (Intersection.id draft)) eqn:E.
  - by rewrite String.eqb_refl.
  - by rewrite E.
Qed.

(** X9. Saving is idempotent: a second save right after a successful one
    succeeds and changes nothing. *)
Theorem handleSave_twice (st st' : State) :
  handleSave st = JS.Ok st' → handleSave st' = JS.Ok st'.
Proof.
  intros Hsave.
  destruct (editData st) as [draft|] eqn:Hd.
  - rewrite (handleSave_saved_entry _ _ Hd) in Hsave. injection Hsave as <-.
    rewrite (handleSave_saved_entry _ draft) by done.
    f_equal. unfold setEditDialogOpen, setIntersections. simpl. f_equal.
    rewrite <- list_fmap_compose. apply list_fmap_ext.
    intros k int _. apply saved_entry_idemp.
  - unfold handleSave in Hsave. rewrite Hd in Hsave.
    destruct (intersections st) as [|int ints] eqn:Hints; [|done].
    simpl in Hsave. injection Hsave as <-. reflexivity.
Qed.

Lemma handleSave_twice_witness :
  ∃ st', handleSave editedState = JS.Ok st' ∧ handleSave st' = JS.Ok st'.
Proof.
  eexists. assert (H : handleSave editedState = JS.Ok _) by reflexivity.
  split; [exact H|]. exact (handleSave_twice _ _ H).
Defined.

(** ** Refresh *)

(** X10. When the refresh timer fires, the committed list becomes the
    page's data set again, whatever had been saved; a draft that is open
    survives, and saving it afterwards puts it into the fresh list in place
    of the entry with its [id]. *)
Theorem save_after_refresh (st : State) (draft : Intersection.t) :
  editData st = Some draft →
  intersections (fetchData_timeout (fetchData st)) = mockIntersections ∧
  editData (fetchData_timeout (fetchData st)) = Some draft ∧
  editDialogOpen (fetchData_timeout (fetchData st)) = editDialogOpen st ∧
  ∃ st', handleSave (fetchData_timeout (fetchData st)) = JS.Ok st' ∧
         intersections st' = saved_entry draft <$> mockIntersections.
Proof.
  intros Hd. split_and!; [done..|].
  eexists. split; [by apply handleSave_saved_entry | done].
Qed.

Lemma save_after_refresh_witness :
  editData editedState
  = Some (Intersection.mk "int-002" "Indiranagar 100ft Road" "active"
            "2023-06-15T10:32:15"
            [ Phase.mk "north-south" "North-South" 55 true "green";
              Phase.mk "east-west" "East-West" 50 false "red" ]
            89 30) ∧
  intersections (fetchData_timeout (fetchData editedState)) = mockIntersections.
Proof.
  split; [reflexivity|].
  by destruct (save_after_refresh editedState _ eq_refl) as [H _].
Defined.

(** An edit saved before the refresh is gone after it. *)
Example refresh_drops_saved_edit :
  (λ st, getTotalCycleTime <$> (Intersection.phases <$> intersections st))
    <$> handleSave editedState
  = JS.Ok (JS.Int <$> [105; 105; 60; 80]%Z) ∧
  (λ st, getTotalCycleTime
           <$> (Intersection.phases <$> intersections (fetchData_timeout (fetchData st))))
    <$> handleSave editedState
  = JS.Ok (JS.Int <$> [105; 110; 60; 80]%Z).
Proof. split; reflexivity. Qed.

(** ** Rendering the cards *)

Lemma mapM_result_Ok {A B} (f : A → JS.result B) (l : list A) :
  Forall (λ x, ∃ y, f x = JS.Ok y) l → ∃ k, mapM f l = JS.Ok k.
Proof.
  induction 1 as [|x l [y Hy] _ [k Hk]]; [by exists []|].
  exists (y :: k). cbn [mapM] in *. by rewrite Hy, Hk.
Qed.

Lemma mapM_result_Throw {A B} (f : A → JS.result B) (l : list A) :
  mapM f l = JS.Throw JS.TypeError ↔ Exists (λ x, f x = JS.Throw JS.TypeError) l.
Proof.
  induction l as [|x l IH]; cbn [mapM].
  - split; [done | by inversion 1].
  - rewrite Exists_cons, <- IH. clear IH. destruct (f x) as [y|[]]; simpl.
    + destruct (mapM f l) as [k|[]]; simpl.
      * split; [done | by intros [?|?]].
      * split; [by right | done].
    + split; [by left | done].
Qed.

Lemma renderCard_Throw int :
  renderCard int = JS.Throw JS.TypeError ↔ Intersection.phases int = [].
Proof.
  unfold renderCard.
  destruct (derivations_None (Intersection.phases int)) as (Ha & Hn).
  destruct (getActivePhase _) as [active|].
  - destruct (getNextPhase _) as [next|]; simpl.
    + split; [done|]. intros H. by apply Ha in H.
    + split; [intros _; by apply Hn | done].
  - simpl. split; [intros _; by apply Ha | done].
Qed.

Lemma renderCard_Ok int :
  Intersection.phases int ≠ [] → ∃ card, renderCard int = JS.Ok card.
Proof.
  intros Hne. destruct (renderCard int) as [card|[]] eqn:E; [by exists card|].
  by apply renderCard_Throw in E.
Qed.

(** X11. Rendering a card throws a [TypeError] exactly when the
    intersection has no phase, and rendering the page throws exactly when
    loading is over and some intersection the search keeps has no phase. *)
Theorem render_throws_on_empty_phases (st : State) :
  (∀ int, renderCard int = JS.Throw JS.TypeError ↔ Intersection.phases int = []) ∧
  (renderBody st = JS.Throw JS.TypeError ↔
   loading st = false ∧
   ∃ int, int ∈ filteredIntersections st ∧ Intersection.phases int = []).
Proof.
  split; [apply renderCard_Throw|]. unfold renderBody.
  destruct (loading st).
  - split; [done | by intros [? _]].
  - destruct (mapM renderCard (filteredIntersections st)) as [cards|[]] eqn:E; simpl.
    + split; [done|]. intros (_ & int & Hin & Hph).
      assert (mapM renderCard (filteredIntersections st) = JS.Throw JS.TypeError)
        as Hthrow; [|congruence].
      apply mapM_result_Throw. apply Exists_exists.
      exists int. split; [done | by apply renderCard_Throw].
    + split; [|done]. intros _. split; [done|].
      apply mapM_result_Throw in E as (int & Hin & Hthrow)%Exists_exists.
      exists int. split; [done | by apply renderCard_Throw].
Qed.

Example renderBody_empty_phases :
  renderBody
    (setIntersections
       [ mgRoad; Intersection.mk "int-005" "Hebbal Flyover" "inactive"
                   "2023-06-15T11:00:00" [] 0 0 ]
       loadedState)
  = JS.Throw JS.TypeError.
Proof. reflexivity. Qed.

Example renderBody_empty_phases_filtered_out :
  (λ body, match body with Spinner => 0 | Grid cards => length cards end)
    <$> renderBody
          (handleSearch "mg road"
             (setIntersections
                [ mgRoad; Intersection.mk "int-005" "Hebbal Flyover" "inactive"
                            "2023-06-15T11:00:00" [] 0 0 ]
                loadedState))
  = JS.Ok 1.
Proof. reflexivity. Qed.

Lemma phases_nonempty_mock :
  Forall (λ int, Intersection.phases int ≠ []) mockIntersections.
Proof. repeat constructor; discriminate. Qed.

(** X12. "Every committed intersection and the draft have at least one
    phase" holds of the loaded data and is kept by every handler of the
    page (opening the dialog on a committed intersection, phase and status
    edits, saving, searching, refreshing); in such a state rendering the
    page does not throw. *)
Theorem phases_nonempty_invariant (st : State) :
  phases_nonempty st →
  (∀ value, phases_nonempty (handleSearch value st)) ∧
  (∀ int, int ∈ intersections st → phases_nonempty (handleEdit int st)) ∧
  (∀ phaseId a st', handlePhaseChange phaseId a st = JS.Ok st' → phases_nonempty st') ∧
  (∀ status st', handleStatusChange status st = JS.Ok st' → phases_nonempty st') ∧
  (∀ st', handleSave st = JS.Ok st' → phases_nonempty st') ∧
  phases_nonempty (fetchData st) ∧
  phases_nonempty (fetchData_timeout st) ∧
  (∃ body, renderBody st = JS.Ok body).
Proof.
  intros [Hints Hdraft].
  assert (Hlen : ∀ (l l' : list Phase.t), length l' = length l → l ≠ [] → l' ≠ []).
  { intros l l' Hl Hne ->. by destruct l. }
  split_and!.
  - done.
  - intros int Hin. split; [done|]. simpl. intros ? [= <-].
    rewrite Forall_forall in Hints. by apply Hints.
  - intros phaseId a st' Hst'. destruct (editData st) as [prev|] eqn:Hd.
    + destruct (handlePhaseChange_draft st prev phaseId a Hd)
        as (next & Heq & _ & Hl).
      rewrite Heq in Hst'. injection Hst' as <-. split; [done|]. simpl.
      intros ? [= <-]. eapply Hlen; eauto.
    + unfold handlePhaseChange in Hst'. by rewrite Hd in Hst'.
  - intros status st' Hst'. destruct (editData st) as [prev|] eqn:Hd.
    + destruct (handleStatusChange_draft st prev status Hd)
        as (next & Heq & _ & Hl).
      rewrite Heq in Hst'. injection Hst' as <-. split; [done|]. simpl.
      intros ? [= <-]. eapply Hlen; eauto.
    + unfold handleStatusChange in Hst'. by rewrite Hd in Hst'.
  - intros st' Hst'. destruct (editData st) as [draft|] eqn:Hd.
    + rewrite (handleSave_saved_entry _ _ Hd) in Hst'. injection Hst' as <-.
      split; simpl; [|by rewrite Hd].
      rewrite Forall_fmap. eapply Forall_impl; [done|].
      intros int Hint. simpl. unfold saved_entry.
      destruct (String.eqb _ _); eauto.
    + unfold handleSave in Hst'. rewrite Hd in Hst'.
      destruct (intersections st) as [|int ints] eqn:Hi; [|done].
      simpl in Hst'. injection Hst' as <-. split; simpl; [done | by rewrite Hd].
  - done.
  - split; [apply phases_nonempty_mock | done].
  - unfold renderBody. destruct (loading st); [by eexists|].
    destruct (mapM_result_Ok renderCard (filteredIntersections st)) as [cards ->].
    + rewrite Forall_forall in Hints. apply Forall_forall. intros int Hin.
      apply renderCard_Ok, Hints.
      by apply filteredIntersections_elem.
    + by eexists.
Qed.

Lemma phases_nonempty_invariant_witness :
  phases_nonempty loadedState ∧ ∃ body, renderBody loadedState = JS.Ok body.
Proof.
  assert (H : phases_nonempty loadedState).
  { split; [apply phases_nonempty_mock | discriminate]. }
  split; [exact H|].
  apply (phases_nonempty_invariant loadedState H).
Defined.

(** X13. The card of an intersection that has just been given a status by
    [handleStatusChange] lights exactly one lamp for its current phase:
    yellow when the status is not [active]; green when it is [active] and
    some phase is flagged; red when it is [active] and no phase is flagged
    (the current phase is then the first one, which is not flagged). *)
Theorem status_change_lamps (st : State) (prev : Intersection.t) (status : string) :
  editData st = Some prev →
  Intersection.phases prev ≠ [] →
  ∃ st' next card,
    handleStatusChange status st = JS.Ok st' ∧
    editData st' = Some next ∧
    renderCard next = JS.Ok card ∧
    (status ≠ "active" →
     yellowLit card = true ∧ redLit card = false ∧ greenLit card = false) ∧
    (status = "active" → (∃ i p, first_at Phase.active (Intersection.phases prev) i p) →
     greenLit card = true ∧ redLit card = false ∧ yellowLit card = false) ∧
    (status = "active" → nowhere Phase.active (Intersection.phases prev) →
     redLit card = true ∧ greenLit card = false ∧ yellowLit card = false).
Proof.
  intros Hd Hne. unfold handleStatusChange. rewrite Hd. simpl.
  set (g := λ phase, Phase.mk _ _ _ _ _).
  change (map g (Intersection.phases prev)) with (g <$> Intersection.phases prev).
  eexists _, (Intersection.mk
                (Intersection.id prev) (Intersection.name prev) status
                (Intersection.lastUpdated prev) (g <$> Intersection.phases prev)
                (Intersection.vehicleCount prev) (Intersection.avgWaitTime prev)).
  unfold renderCard. cbn [Intersection.phases].
  destruct (derivations_fmap g (Intersection.phases prev)) as [-> ->]; [done|].
  destruct (derivations_None (Intersection.phases prev)) as (Ha & Hn).
  destruct (getActivePhase (Intersection.phases prev)) as [p|] eqn:Hp;
    [|by destruct Hne; apply Ha].
  destruct (getNextPhase (Intersection.phases prev)) as [q|] eqn:Hq;
    [|by destruct Hne; apply Hn].
  simpl. eexists. split; [reflexivity|]. split; [reflexivity|].
  split; [reflexivity|]. simpl.
  split_and!.
  - intros Hs%String.eqb_neq. by rewrite Hs.
  - intros -> (i & p' & Hfirst). simpl.
    rewrite (getActivePhase_first_at _ _ _ Hfirst) in Hp. injection Hp as ->.
    destruct Hfirst as (_ & -> & _). done.
  - intros -> Hnone. simpl.
    rewrite (getActivePhase_nowhere _ Hnone) in Hp.
    apply list_elem_of_lookup_2 in Hp.
    unfold nowhere in Hnone. rewrite Forall_forall in Hnone.
    by rewrite (Hnone p Hp).
Qed.

Lemma status_change_lamps_witness :
  editData strayDraftState
  = Some (Intersection.mk "int-005" "Hebbal Flyover" "inactive" "2023-06-15T11:00:00"
            marathahalliPhases 0 0) ∧
  marathahalliPhases ≠ [] ∧
  ∃ st' next card,
    handleStatusChange "active" strayDraftState = JS.Ok st' ∧
    editData st' = Some next ∧
    renderCard next = JS.Ok card ∧
    redLit card = true ∧ yellowLit card = false.
Proof.
  assert (Hne : marathahalliPhases ≠ []) by discriminate.
  split; [reflexivity|]. split; [exact Hne|].
  destruct (status_change_lamps strayDraftState _ "active" eq_refl Hne)
    as (st' & next & card & Hst' & Hnext & Hcard & _ & _ & Hred).
  exists st', next, card.
  split; [exact Hst'|]. split; [exact Hnext|]. split; [exact Hcard|].
  destruct Hred as (Hr & _ & Hy); [reflexivity | repeat constructor |].
  by split.
Defined.

(** The data set has an entry whose stored colours are not the ones its
    status gives: selecting the status it already has changes them. *)
Example handleStatusChange_same_status_recolors :
  (λ st, Phase.color <$> (from_option Intersection.phases [] (editData st)))
    <$> handleStatusChange "inactive"
          (handleEdit
             (Intersection.mk "int-004" "Koramangala 80ft Road" "inactive"
                "2023-06-14T22:10:00"
                [ Phase.mk "north-south" "North-South" 40 false "red";
                  Phase.mk "east-west" "East-West" 40 true "green" ]
                0 0)
             loadedState)
  = JS.Ok ["yellow"; "yellow"].
Proof. reflexivity. Qed.

(** ** Searching *)

Lemma includes_empty s : JS.includes s "" = true.
Proof. by destruct s. Qed.

Lemma filter_all {A} (f : A → bool) l :
  (∀ x, f x = true) → List.filter f l = l.
Proof.
  intros Hf. induction l as [|x l IH]; [done|]. simpl. by rewrite Hf, IH.
Qed.

Lemma filter_sublist_impl {A} (f g : A → bool) l :
  (∀ x, f x = true → g x = true) → List.filter f l `sublist_of` List.filter g l.
Proof.
  intros Hfg. induction l as [|x l IH]; simpl; [done|].
  destruct (f x) eqn:Hf.
  - rewrite (Hfg x Hf). by constructor.
  - destruct (g x); [by constructor | done].
Qed.

Lemma append_assoc s t u : (s +:+ t) +:+ u = s +:+ t +:+ u.
Proof.
  induction s as [|c s IH]; [done|]. rewrite !append_String. by rewrite IH.
Qed.

Lemma includes_trans s t u :
  JS.includes s t = true → JS.includes t u = true → JS.includes s u = true.
Proof.
  rewrite !includes_append.
  intros (a & b & ->) (c & d & ->). exists (a +:+ c), (d +:+ b).
  by rewrite !append_assoc.
Qed.

Lemma contains_ignoring_case_trans s t u :
  contains_ignoring_case s t → contains_ignoring_case t u →
  contains_ignoring_case s u.
Proof. rewrite <- !includes_toLowerCase. apply includes_trans. Qed.

Lemma contains_ignoring_case_append_l t extra :
  contains_ignoring_case (t +:+ extra) t.
Proof.
  exists ""%string, t, extra. split; [done|]. by apply toLowerCase_eq.
Qed.

(** X14. With an empty search string the filter keeps every intersection,
    in order. *)
Theorem filteredIntersections_empty_search (st : State) :
  searchTerm st = "" → filteredIntersections st = intersections st.
Proof.
  intros Ht. unfold filteredIntersections. rewrite Ht.
  apply filter_all. intros int. by rewrite includes_empty.
Qed.

Lemma filteredIntersections_empty_search_witness :
  searchTerm (fetchData_timeout (fetchData editedState)) = "" ∧
  filteredIntersections (fetchData_timeout (fetchData editedState)) = mockIntersections.
Proof.
  split; [reflexivity|].
  exact (filteredIntersections_empty_search
           (fetchData_timeout (fetchData editedState)) eq_refl).
Defined.

(** X15. A longer search string never shows more: if the new string
    contains the old one (case ignored), what the filter keeps for the new
    string is a sublist of what it kept for the old one. Typing further
    characters after the old string is the usual case. *)
Theorem search_narrows (st : State) (term term' : string) :
  contains_ignoring_case term' term →
  filteredIntersections (handleSearch term' st)
    `sublist_of` filteredIntersections (handleSearch term st) ∧
  ∀ extra,
    filteredIntersections (handleSearch (term +:+ extra) st)
      `sublist_of` filteredIntersections (handleSearch term st).
Proof.
  assert (Hgen : ∀ t t', contains_ignoring_case t' t →
            filteredIntersections (handleSearch t' st)
              `sublist_of` filteredIntersections (handleSearch t st)).
  { intros t t' Hc. unfold filteredIntersections. simpl.
    apply filter_sublist_impl. intros int.
    rewrite !filter_test_matches. unfold matches_search.
    intros [H|H]; [left|right]; by eapply contains_ignoring_case_trans. }
  intros Hc. split; [by apply Hgen|].
  intros extra. apply Hgen, contains_ignoring_case_append_l.
Qed.

Lemma search_narrows_witness :
  contains_ignoring_case "Road &" "road" ∧
  filteredIntersections (handleSearch "Road &" loadedState)
    `sublist_of` filteredIntersections (handleSearch "road" loadedState).
Proof.
  assert (H : contains_ignoring_case "Road &" "road").
  { by apply includes_toLowerCase. }
  split; [exact H|].
  apply (search_narrows loadedState "road" "Road &" H).
Defined.

(** * Properties of the Violations page *)

Lemma violation_test_matches (st : ViolationsPage.State) (violation : Violation.t) :
  (JS.includes (JS.toLowerCase (Violation.licensePlate violation))
               (JS.toLowerCase (ViolationsPage.searchTerm st)) ||
   JS.includes (JS.toLowerCase (Violation.location violation))
               (JS.toLowerCase (ViolationsPage.searchTerm st))) &&
  (String.eqb (Filters.type (ViolationsPage.filters st)) "all" ||
   String.eqb (Violation.type violation) (Filters.type (ViolationsPage.filters st))) &&
  (String.eqb (Filters.status (ViolationsPage.filters st)) "all" ||
   String.eqb (Violation.status violation) (Filters.status (ViolationsPage.filters st)))
  = true
  ↔ ViolationsPage.matches_filters
      (ViolationsPage.searchTerm st) (ViolationsPage.filters st) violation.
Proof.
  unfold ViolationsPage.matches_filters.
  rewrite !andb_true_iff, !orb_true_iff, !includes_toLowerCase, !String.eqb_eq.
  tauto.
Qed.

(** X16. [filteredViolations] keeps exactly the violations whose licence
    plate or location contains the search string, case ignored, and whose
    type and status each pass their filter (a filter passes everything when
    it is "all", and otherwise only the equal value); the kept violations
    stay in order. *)
Theorem filteredViolations_matches (st : ViolationsPage.State) :
  (∀ dec : ∀ v, Decision (ViolationsPage.matches_filters
                            (ViolationsPage.searchTerm st) (ViolationsPage.filters st) v),
     ViolationsPage.filteredViolations st
     = filter (ViolationsPage.matches_filters
                 (ViolationsPage.searchTerm st) (ViolationsPage.filters st))
         (ViolationsPage.violations st)) ∧
  (∀ v, v ∈ ViolationsPage.filteredViolations st ↔
        v ∈ ViolationsPage.violations st ∧
        ViolationsPage.matches_filters
          (ViolationsPage.searchTerm st) (ViolationsPage.filters st) v) ∧
  ViolationsPage.filteredViolations st `sublist_of` ViolationsPage.violations st.
Proof.
  split_and!.
  - intros dec. unfold ViolationsPage.filteredViolations.
    apply filter_decide. intros v. apply violation_test_matches.
  - intros v. unfold ViolationsPage.filteredViolations.
    rewrite !list_elem_of_In, filter_In. cbv zeta.
    by rewrite violation_test_matches.
  - apply filter_sublist.
Qed.

Lemma filteredViolations_matches_witness :
  ViolationsPage.matches_filters "ka05ij" (Filters.mk "all" "processed")
    (Violation.mk 5 "no_helmet" "KA05IJ7890" "Koramangala 80ft Road"
       "2023-06-15T14:22:10" "processed" "https://via.placeholder.com/150" 55) ∧
  Violation.mk 5 "no_helmet" "KA05IJ7890" "Koramangala 80ft Road"
    "2023-06-15T14:22:10" "processed" "https://via.placeholder.com/150" 55
  ∈ ViolationsPage.filteredViolations
      (ViolationsPage.handleFilterChange Filters.Status "processed"
         (ViolationsPage.handleSearch "ka05ij"
            (ViolationsPage.fetchViolations_timeout ViolationsPage.initialState))).
Proof.
  assert (Hm : ViolationsPage.matches_filters "ka05ij" (Filters.mk "all" "processed")
                 (Violation.mk 5 "no_helmet" "KA05IJ7890" "Koramangala 80ft Road"
                    "2023-06-15T14:22:10" "processed"
                    "https://via.placeholder.com/150" 55)).
  { split_and!; [left | by left | by right].
    exists ""%string, "KA05IJ"%string, "7890"%string.
    split; [reflexivity | eq_ignoring_case_by_table]. }
  split; [exact Hm|].
  destruct (filteredViolations_matches
              (ViolationsPage.handleFilterChange Filters.Status "processed"
                 (ViolationsPage.handleSearch "ka05ij"
                    (ViolationsPage.fetchViolations_timeout
                       ViolationsPage.initialState))))
    as (_ & Hiff & _).
  apply Hiff. split; [|exact Hm].
  apply list_elem_of_lookup. by exists 4.
Defined.

Example filteredViolations_mock :
  Violation.id <$> ViolationsPage.filteredViolations
                     (ViolationsPage.handleFilterChange Filters.Status "processed"
                        (ViolationsPage.handleSearch "ROAD"
                           (ViolationsPage.fetchViolations_timeout
                              ViolationsPage.initialState)))
  = [2; 5]%Z.
Proof. reflexivity. Qed.

(** X17. With an empty search string and both filters on "all", as the page
    starts, no violation is hidden. *)
Theorem filteredViolations_defaults (st : ViolationsPage.State) :
  ViolationsPage.searchTerm st = "" →
  ViolationsPage.filters st = Filters.mk "all" "all" →
  ViolationsPage.filteredViolations st = ViolationsPage.violations st.
Proof.
  intros Ht Hf. unfold ViolationsPage.filteredViolations. rewrite Ht, Hf.
  apply filter_all. intros v. cbv zeta. by rewrite includes_empty.
Qed.

Lemma filteredViolations_defaults_witness :
  ViolationsPage.filteredViolations
    (ViolationsPage.fetchViolations_timeout ViolationsPage.initialState)
  = ViolationsPage.mockViolations.
Proof.
  exact (filteredViolations_defaults
           (ViolationsPage.fetchViolations_timeout ViolationsPage.initialState)
           eq_refl eq_refl).
Defined.

(** ** Pages *)

Lemma slice_nonneg {A} (a b : Z) (l : list A) :
  (0 ≤ a ≤ b)%Z →
  JS.slice a b l = take (Z.to_nat (b - a)) (drop (Z.to_nat a) l).
Proof.
  intros Hab. unfold JS.slice. cbv zeta.
  destruct (decide (a < 0)%Z) as [|_]; [lia|].
  destruct (decide (b < 0)%Z) as [|_]; [lia|].
  destruct (decide (Z.of_nat (length l) ≤ a)%Z) as [Hle|Hgt].
  - rewrite !drop_ge by lia. by rewrite !take_nil.
  - rewrite (Z.min_l a) by lia.
    destruct (decide (b ≤ Z.of_nat (length l))%Z) as [Hb|Hb].
    + by rewrite (Z.min_l b) by lia.
    + rewrite (Z.min_r b) by lia.
      rewrite (take_ge _ (Z.to_nat (_ - a))) by (rewrite length_drop; lia).
      rewrite take_ge by (rewrite length_drop; lia). done.
Qed.

Lemma pageRows_take_drop (st : ViolationsPage.State) :
  (0 ≤ ViolationsPage.page st)%Z →
  (0 ≤ ViolationsPage.rowsPerPage st)%Z →
  ViolationsPage.pageRows st
  = take (Z.to_nat (ViolationsPage.rowsPerPage st))
      (drop (Z.to_nat (ViolationsPage.page st) * Z.to_nat (ViolationsPage.rowsPerPage st))
         (ViolationsPage.filteredViolations st)).
Proof.
  intros Hp Hr. unfold ViolationsPage.pageRows. rewrite slice_nonneg by nia.
  f_equal; [f_equal; lia|]. f_equal. nia.
Qed.

(** X18. For a page number from 0 and a positive number of rows per page,
    the rows shown are the next [rowsPerPage] entries of the filtered list
    after the first [page * rowsPerPage], so at most [rowsPerPage] many
    and none at all from the end of the list on. The pages 0 to [n - 1] in
    turn show the first [n * rowsPerPage] entries, each once and in order;
    enough pages show the whole filtered list. *)
Theorem pages_partition (st : ViolationsPage.State) :
  (0 ≤ ViolationsPage.page st)%Z →
  (0 < ViolationsPage.rowsPerPage st)%Z →
  ViolationsPage.pageRows st
  = take (Z.to_nat (ViolationsPage.rowsPerPage st))
      (drop (Z.to_nat (ViolationsPage.page st * ViolationsPage.rowsPerPage st))
         (ViolationsPage.filteredViolations st)) ∧
  (Z.of_nat (length (ViolationsPage.pageRows st)) ≤ ViolationsPage.rowsPerPage st)%Z ∧
  ((Z.of_nat (length (ViolationsPage.filteredViolations st))
    ≤ ViolationsPage.page st * ViolationsPage.rowsPerPage st)%Z →
   ViolationsPage.pageRows st = []) ∧
  (∀ n : nat,
     mjoin ((λ k, ViolationsPage.pageRows
                    (ViolationsPage.handleChangePage (Z.of_nat k) st)) <$> seq 0 n)
     = take (n * Z.to_nat (ViolationsPage.rowsPerPage st))
         (ViolationsPage.filteredViolations st)) ∧
  (∀ n : nat,
     (Z.of_nat (length (ViolationsPage.filteredViolations st))
      ≤ Z.of_nat n * ViolationsPage.rowsPerPage st)%Z →
     mjoin ((λ k, ViolationsPage.pageRows
                    (ViolationsPage.handleChangePage (Z.of_nat k) st)) <$> seq 0 n)
     = ViolationsPage.filteredViolations st).
Proof.
  intros Hp Hr.
  assert (Hrows : ViolationsPage.pageRows st
    = take (Z.to_nat (ViolationsPage.rowsPerPage st))
        (drop (Z.to_nat (ViolationsPage.page st * ViolationsPage.rowsPerPage st))
           (ViolationsPage.filteredViolations st))).
  { rewrite pageRows_take_drop by lia. do 2 f_equal. nia. }
  assert (Hpages : ∀ n : nat,
     mjoin ((λ k, ViolationsPage.pageRows
                    (ViolationsPage.handleChangePage (Z.of_nat k) st)) <$> seq 0 n)
     = take (n * Z.to_nat (ViolationsPage.rowsPerPage st))
         (ViolationsPage.filteredViolations st)).
  { induction n as [|n IH]; [done|].
    rewrite seq_S, fmap_app, join_app, IH. simpl. rewrite app_nil_r.
    rewrite pageRows_take_drop by (simpl; lia). simpl.
    rewrite Nat2Z.id, take_take_drop. f_equal. lia. }
  split_and!.
  - exact Hrows.
  - rewrite Hrows, length_take. lia.
  - intros Hend. rewrite Hrows, drop_ge by lia. apply take_nil.
  - exact Hpages.
  - intros n Hn. rewrite Hpages. apply take_ge. nia.
Qed.

Lemma pages_partition_witness :
  (0 ≤ ViolationsPage.page
         (ViolationsPage.handleChangeRowsPerPage 2
            (ViolationsPage.fetchViolations_timeout ViolationsPage.initialState)))%Z ∧
  (0 < ViolationsPage.rowsPerPage
         (ViolationsPage.handleChangeRowsPerPage 2
            (ViolationsPage.fetchViolations_timeout ViolationsPage.initialState)))%Z ∧
  mjoin ((λ k, ViolationsPage.pageRows
                 (ViolationsPage.handleChangePage (Z.of_nat k)
                    (ViolationsPage.handleChangeRowsPerPage 2
                       (ViolationsPage.fetchViolations_timeout
                          ViolationsPage.initialState)))) <$> seq 0 3)
  = ViolationsPage.mockViolations.
Proof.
  split; [done|]. split; [done|].
  by apply (pages_partition
              (ViolationsPage.handleChangeRowsPerPage 2
                 (ViolationsPage.fetchViolations_timeout ViolationsPage.initialState))).
Defined.

Example pageRows_mock :
  Violation.id <$> ViolationsPage.pageRows
                     (ViolationsPage.handleChangePage 1
                        (ViolationsPage.handleChangeRowsPerPage 2
                           (ViolationsPage.fetchViolations_timeout
                              ViolationsPage.initialState)))
  = [3; 4]%Z.
Proof. reflexivity. Qed.

Lemma first_page_shown_at_0 (st : ViolationsPage.State) :
  ViolationsPage.page st = 0%Z →
  (0 < ViolationsPage.rowsPerPage st)%Z →
  first_page_shown st.
Proof.
  intros Hp Hr. unfold first_page_shown.
  assert (Hrows : ViolationsPage.pageRows st
    = take (Z.to_nat (ViolationsPage.rowsPerPage st))
        (ViolationsPage.filteredViolations st)).
  { rewrite pageRows_take_drop by lia. by rewrite Hp. }
  split_and!; [done | done |].
  rewrite Hrows. intros Hne [Hr0 | Hnil]%take_nil_inv; [lia | done].
Qed.

(** X19. Changing the search string, a filter, or the number of rows per
    page (to a positive number) puts the table back on page 0, where it
    shows the first [rowsPerPage] violations of the new filtered list, so
    never an empty page while something matches. Changing the number of
    rows does not change which violations match. *)
Theorem filter_change_first_page (st : ViolationsPage.State) :
  (0 < ViolationsPage.rowsPerPage st)%Z →
  (∀ value, first_page_shown (ViolationsPage.handleSearch value st)) ∧
  (∀ filterType value,
     first_page_shown (ViolationsPage.handleFilterChange filterType value st)) ∧
  (∀ value, (0 < value)%Z →
     first_page_shown (ViolationsPage.handleChangeRowsPerPage value st) ∧
     ViolationsPage.filteredViolations (ViolationsPage.handleChangeRowsPerPage value st)
     = ViolationsPage.filteredViolations st).
Proof.
  intros Hr. split_and!.
  - intros value. by apply first_page_shown_at_0.
  - intros filterType value. by apply first_page_shown_at_0.
  - intros value Hv. split; [by apply first_page_shown_at_0 | done].
Qed.

Lemma filter_change_first_page_witness :
  (0 < ViolationsPage.rowsPerPage
         (ViolationsPage.handleChangePage 1
            (ViolationsPage.handleChangeRowsPerPage 2
               (ViolationsPage.fetchViolations_timeout ViolationsPage.initialState))))%Z ∧
  first_page_shown
    (ViolationsPage.handleFilterChange Filters.Type_ "no_helmet"
       (ViolationsPage.handleChangePage 1
          (ViolationsPage.handleChangeRowsPerPage 2
             (ViolationsPage.fetchViolations_timeout ViolationsPage.initialState)))).
Proof.
  split; [done|].
  by apply (filter_change_first_page
              (ViolationsPage.handleChangePage 1
                 (ViolationsPage.handleChangeRowsPerPage 2
                    (ViolationsPage.fetchViolations_timeout
                       ViolationsPage.initialState)))).
Defined.

(** X20. The table body shows the loading row exactly while loading, the
    "no violations" row exactly when loading is over and nothing matches,
    and rows otherwise. On page 0 with a positive page size those rows are
    not empty; on a page at or past the end of the filtered list they are
    empty, without the "no violations" row. *)
Theorem tableBody_cases (st : ViolationsPage.State) :
  (ViolationsPage.tableBody st = ViolationsPage.LoadingRow ↔
   ViolationsPage.loading st = true) ∧
  (ViolationsPage.tableBody st = ViolationsPage.NoViolationsRow ↔
   ViolationsPage.loading st = false ∧ ViolationsPage.filteredViolations st = []) ∧
  (ViolationsPage.loading st = false →
   ViolationsPage.filteredViolations st ≠ [] →
   ViolationsPage.tableBody st = ViolationsPage.Rows (ViolationsPage.pageRows st)) ∧
  (ViolationsPage.page st = 0%Z → (0 < ViolationsPage.rowsPerPage st)%Z →
   ViolationsPage.filteredViolations st ≠ [] → ViolationsPage.pageRows st ≠ []) ∧
  ((0 ≤ ViolationsPage.page st)%Z → (0 < ViolationsPage.rowsPerPage st)%Z →
   (Z.of_nat (length (ViolationsPage.filteredViolations st))
    ≤ ViolationsPage.page st * ViolationsPage.rowsPerPage st)%Z →
   ViolationsPage.pageRows st = []).
Proof.
  unfold ViolationsPage.tableBody.
  split_and!.
  - destruct (ViolationsPage.loading st); [done|].
    destruct (_ =? _)%Z; by split.
  - destruct (ViolationsPage.loading st); [by split; [|intros []]|].
    destruct (ViolationsPage.filteredViolations st) as [|v l]; simpl.
    + by split.
    + split; [done | by intros []].
  - intros -> Hne.
    destruct (ViolationsPage.filteredViolations st) as [|v l]; done.
  - intros Hp Hr. by apply first_page_shown_at_0.
  - intros Hp Hr Hend. rewrite pageRows_take_drop by lia.
    rewrite drop_ge by nia. apply take_nil.
Qed.

Example tableBody_stale_page :
  ViolationsPage.tableBody
    (ViolationsPage.handleChangePage 1
       (ViolationsPage.fetchViolations_timeout ViolationsPage.initialState))
  = ViolationsPage.Rows [].
Proof. reflexivity. Qed.
